(** * godoc-repair: the comment rewriter and the identifier splitter

    A shallow embedding of the decision logic of [main.go]: [autoDecl]
    with its helpers [containsGoDoc], [trimPrefix] and [mockDoc], and the
    word splitter [Split].  Go strings are byte strings, so they are
    modelled by [string] (a list of 8-bit [ascii]); runes are [Z].
    A panic (index or slice out of range) is the [None] of the option
    monad.  The functions of Go's standard library that the code calls
    ([unicode/utf8], [unicode], [strings], [fmt]) are modelled in modules
    of the same names ([strings] is [gostrings] here).  After them come
    the function that [instrumentFile] gives to [dst.Inspect], the file
    filters of [instrumentDir], and [mapDirectory] with the walk of
    [path/filepath] on an explicit tree of files. *)

From Stdlib Require Import ZArith Lia Bool Ascii String List.
From stdpp Require Import base option list strings.

Definition rune := Z.

(** The numeric value of a byte, and the conversion [byte(x)] of an
    integer, which keeps the low eight bits. *)
Definition byteZ (c : ascii) : Z := Z.of_N (N_of_ascii c).
Definition toByte (z : Z) : ascii := ascii_of_N (Z.to_N (Z.land z 0xFF)).

(** [s[i]] for an index the caller has checked. *)
Definition byteAt (s : string) (i : nat) : Z :=
  match String.get i s with Some c => byteZ c | None => 0%Z end.

(** ** Package unicode/utf8 *)
Module utf8.
Local Open Scope Z_scope.

Definition RuneError : rune := 0xFFFD.
Definition RuneSelf : Z := 0x80.
Definition MaxRune : rune := 0x10FFFF.
Definition surrogateMin : rune := 0xD800.
Definition surrogateMax : rune := 0xDFFF.

Definition t2 : Z := 0xC0.
Definition t3 : Z := 0xE0.
Definition t4 : Z := 0xF0.
Definition tx : Z := 0x80.
Definition maskx : Z := 0x3F.
Definition mask2 : Z := 0x1F.
Definition mask3 : Z := 0x0F.
Definition mask4 : Z := 0x07.
Definition rune1Max : Z := 0x7F.
Definition rune2Max : Z := 0x7FF.
Definition rune3Max : Z := 0xFFFF.

Definition locb : Z := 0x80.
Definition hicb : Z := 0xBF.

(* information about the first byte of an encoding: high nibble is an
   index into acceptRanges, low nibble the size (or a status) *)
Definition xx : Z := 0xF1.
Definition as_ : Z := 0xF0.
Definition s1 : Z := 0x02.
Definition s2 : Z := 0x13.
Definition s3 : Z := 0x03.
Definition s4 : Z := 0x23.
Definition s5 : Z := 0x34.
Definition s6 : Z := 0x04.
Definition s7 : Z := 0x44.

(** The table [first], by ranges of the byte. *)
Definition first (b : Z) : Z :=
  if b <? 0x80 then as_
  else if b <? 0xC2 then xx
  else if b <? 0xE0 then s1
  else if b =? 0xE0 then s2
  else if b <? 0xED then s3
  else if b =? 0xED then s4
  else if b <? 0xF0 then s3
  else if b =? 0xF0 then s5
  else if b <? 0xF4 then s6
  else if b =? 0xF4 then s7
  else xx.

(** [acceptRanges[i]] as the pair (lo, hi); entries 5..15 are zero. *)
Definition acceptRanges (i : Z) : Z * Z :=
  match i with
  | 0 => (locb, hicb)
  | 1 => (0xA0, hicb)
  | 2 => (locb, 0x9F)
  | 3 => (0x90, hicb)
  | 4 => (locb, 0x8F)
  | _ => (0, 0)
  end.

(** [utf8.DecodeRuneInString]: the first rune of [s] and its width in
    bytes; [(RuneError, 1)] for a byte that starts no valid encoding. *)
Definition DecodeRuneInString (s : string) : rune * nat :=
  let n := Z.of_nat (String.length s) in
  if n <? 1 then (RuneError, 0%nat) else
  let s0 := byteAt s 0 in
  let x := first s0 in
  if as_ <=? x then ((if x =? xx then RuneError else s0), 1%nat) else
  let sz := Z.land x 7 in
  let accept := acceptRanges (Z.shiftr x 4) in
  if n <? sz then (RuneError, 1%nat) else
  let b1 := byteAt s 1 in
  if (b1 <? fst accept) || (snd accept <? b1) then (RuneError, 1%nat) else
  if sz <=? 2 then
    (Z.lor (Z.shiftl (Z.land s0 mask2) 6) (Z.land b1 maskx), 2%nat) else
  let b2 := byteAt s 2 in
  if (b2 <? locb) || (hicb <? b2) then (RuneError, 1%nat) else
  if sz <=? 3 then
    (Z.lor (Z.lor (Z.shiftl (Z.land s0 mask3) 12)
                  (Z.shiftl (Z.land b1 maskx) 6))
           (Z.land b2 maskx), 3%nat) else
  let b3 := byteAt s 3 in
  if (b3 <? locb) || (hicb <? b3) then (RuneError, 1%nat) else
  (Z.lor (Z.lor (Z.lor (Z.shiftl (Z.land s0 mask4) 18)
                       (Z.shiftl (Z.land b1 maskx) 12))
                (Z.shiftl (Z.land b2 maskx) 6))
         (Z.land b3 maskx), 4%nat).

(** [utf8.ValidString]: the loop [for i := 0; i < n; { ... i += size }]
    written by recursion on the bytes still to be read. *)
Fixpoint ValidString (s : string) : bool :=
  match s with
  | EmptyString => true
  | String c0 r0 =>
    let si := byteZ c0 in
    if si <? RuneSelf then ValidString r0 else
    let x := first si in
    if x =? xx then false else
    let size := Z.land x 7 in
    if Z.of_nat (String.length s) <? size then false else
    let accept := acceptRanges (Z.shiftr x 4) in
    match r0 with
    | EmptyString => false
    | String c1 r1 =>
      if (byteZ c1 <? fst accept) || (snd accept <? byteZ c1) then false
      else if size =? 2 then ValidString r1
      else
        match r1 with
        | EmptyString => false
        | String c2 r2 =>
          if (byteZ c2 <? locb) || (hicb <? byteZ c2) then false
          else if size =? 3 then ValidString r2
          else
            match r2 with
            | EmptyString => false
            | String c3 r3 =>
              if (byteZ c3 <? locb) || (hicb <? byteZ c3) then false
              else ValidString r3
            end
        end
    end
  end.

(** The runes that [for _, r := range s] yields, in order: each step
    decodes one rune and moves on by its width. *)
Fixpoint rangeRunes (s : string) : list rune :=
  match s with
  | EmptyString => []
  | String _ r0 =>
    let '(r, size) := DecodeRuneInString s in
    r :: match size, r0 with
         | 2%nat, String _ r1 => rangeRunes r1
         | 3%nat, String _ (String _ r2) => rangeRunes r2
         | 4%nat, String _ (String _ (String _ r3)) => rangeRunes r3
         | _, _ => rangeRunes r0
         end
  end.

(** The UTF-8 encoding of one rune (the runtime's [encoderune]); a
    surrogate or a value out of range is encoded as [RuneError]. *)
Definition encode3 (r : rune) : string :=
  String (toByte (Z.lor t3 (Z.shiftr r 12)))
    (String (toByte (Z.lor tx (Z.land (Z.shiftr r 6) maskx)))
      (String (toByte (Z.lor tx (Z.land r maskx))) EmptyString)).

Definition EncodeRune (r : rune) : string :=
  if (0 <=? r) && (r <=? rune1Max) then String (toByte r) EmptyString
  else if (0 <=? r) && (r <=? rune2Max) then
    String (toByte (Z.lor t2 (Z.shiftr r 6)))
      (String (toByte (Z.lor tx (Z.land r maskx))) EmptyString)
  else if (r <? 0) || (MaxRune <? r)
          || ((surrogateMin <=? r) && (r <=? surrogateMax)) then
    encode3 RuneError
  else if r <=? rune3Max then encode3 r
  else
    String (toByte (Z.lor t4 (Z.shiftr r 18)))
      (String (toByte (Z.lor tx (Z.land (Z.shiftr r 12) maskx)))
        (String (toByte (Z.lor tx (Z.land (Z.shiftr r 6) maskx)))
          (String (toByte (Z.lor tx (Z.land r maskx))) EmptyString))).

(** [string(rs)] for [rs []rune]. *)
Fixpoint runesToString (rs : list rune) : string :=
  match rs with
  | [] => EmptyString
  | r :: rs' => EncodeRune r +:+ runesToString rs'
  end.
End utf8.

(** ** Package unicode *)
Module unicode.
Local Open Scope Z_scope.

(** The range tables of the package are not part of this repository.
    They are taken as parameters: membership in [unicode.Upper],
    [unicode.Lower] and [unicode.Digit], and the case mapping
    [unicode.To(LowerCase, _)], for the code points from 0x80 up.  The
    one fact about them that the development uses is that U+FFFD, the
    replacement character, is not an upper-case letter. *)
Class Tables := {
  Upper : rune -> bool;
  Lower : rune -> bool;
  Digit : rune -> bool;
  toLowerCase : rune -> rune;
  RuneError_not_Upper : Upper utf8.RuneError = false
}.

Definition MaxASCII : rune := 0x7F.

Section classes.
Context `{Tables}.

Definition IsUpper (r : rune) : bool :=
  if r <=? MaxASCII then (0x41 <=? r) && (r <=? 0x5A) else Upper r.

Definition IsLower (r : rune) : bool :=
  if r <=? MaxASCII then (0x61 <=? r) && (r <=? 0x7A) else Lower r.

Definition IsDigit (r : rune) : bool :=
  if r <=? MaxASCII then (0x30 <=? r) && (r <=? 0x39) else Digit r.

Definition ToLower (r : rune) : rune :=
  if r <=? MaxASCII then
    (if (0x41 <=? r) && (r <=? 0x5A) then r + (0x61 - 0x41) else r)
  else toLowerCase r.
End classes.

(** The tables cut down to ASCII: no code point from 0x80 up is a letter
    or a digit, and the case mapping leaves it alone.  On ASCII text the
    functions above never consult the tables, so this instance evaluates
    them there as the real tables do. *)
Definition asciiTables : Tables :=
  {| Upper := fun _ => false;
     Lower := fun _ => false;
     Digit := fun _ => false;
     toLowerCase := fun r => r;
     RuneError_not_Upper := eq_refl |}.
End unicode.

(** ** Package strings *)
Module gostrings.
Local Open Scope Z_scope.

(** [s[n:]] *)
Fixpoint sliceFrom (n : nat) (s : string) : string :=
  match n, s with
  | O, _ => s
  | S n', String _ s' => sliceFrom n' s'
  | S _, EmptyString => EmptyString
  end.

(** [len(s) >= len(prefix) && s[:len(prefix)] == prefix], byte by
    byte. *)
Fixpoint HasPrefix (s prefix : string) {struct prefix} : bool :=
  match prefix, s with
  | EmptyString, _ => true
  | String a prefix', String b s' => Ascii.eqb a b && HasPrefix s' prefix'
  | String _ _, EmptyString => false
  end.

Definition TrimPrefix (s prefix : string) : string :=
  if HasPrefix s prefix then sliceFrom (String.length prefix) s else s.

Fixpoint joinRest (elems : list string) (sep : string) : string :=
  match elems with
  | [] => EmptyString
  | e :: elems' => sep +:+ e +:+ joinRest elems' sep
  end.

Definition Join (elems : list string) (sep : string) : string :=
  match elems with
  | [] => EmptyString
  | e :: elems' => e +:+ joinRest elems' sep
  end.

Fixpoint isASCII (s : string) : bool :=
  match s with
  | EmptyString => true
  | String c s' => (byteZ c <? utf8.RuneSelf) && isASCII s'
  end.

Fixpoint hasUpper (s : string) : bool :=
  match s with
  | EmptyString => false
  | String c s' => ((0x41 <=? byteZ c) && (byteZ c <=? 0x5A)) || hasUpper s'
  end.

Fixpoint lowerBytes (s : string) : string :=
  match s with
  | EmptyString => EmptyString
  | String c s' =>
    String (if (0x41 <=? byteZ c) && (byteZ c <=? 0x5A)
            then toByte (byteZ c + (0x61 - 0x41)) else c)
           (lowerBytes s')
  end.

(** [strings.Map]: every rune of [s] is replaced by its image, a
    negative image drops the rune, and a byte that is not valid UTF-8 is
    read as [RuneError]. *)
Fixpoint mapRunes (mapping : rune -> rune) (rs : list rune) : string :=
  match rs with
  | [] => EmptyString
  | r :: rs' =>
    (if mapping r <? 0 then EmptyString else utf8.EncodeRune (mapping r))
      +:+ mapRunes mapping rs'
  end.

Definition Map (mapping : rune -> rune) (s : string) : string :=
  mapRunes mapping (utf8.rangeRunes s).

(** [strings.ToLower], with its fast path for ASCII text. *)
Definition ToLower `{unicode.Tables} (s : string) : string :=
  if isASCII s then (if hasUpper s then lowerBytes s else s)
  else Map unicode.ToLower s.
End gostrings.

(** ** Package fmt *)
Module fmt.
(** [fmt.Sprintf] for the formats of this program: the verb [%s] with
    string operands and [%%]; every other byte is copied.  A verb with
    no operand left prints as Go does; every call of the program passes
    as many operands as its format has verbs. *)
Fixpoint Sprintf (format : string) (a : list string) : string :=
  match format with
  | EmptyString => EmptyString
  | String "%" (String "s" rest) =>
    match a with
    | x :: a' => x +:+ Sprintf rest a'
    | [] => "%!s(MISSING)" +:+ Sprintf rest []
    end
  | String "%" (String "%" rest) => String "%" (Sprintf rest a)
  | String c rest => String c (Sprintf rest a)
  end.
End fmt.

(** ** main.go *)

Definition defaultCommentFormat : string := "// %s missing godoc.".
Definition autoDescriptionFormat : string := "// %s %s".

(** The package variables that the flags set, read once per run. *)
Record Config := {
  commentFormat : string;
  codePath : string;
  autoDescription : bool
}.

Definition defaultConfig : Config :=
  {| commentFormat := defaultCommentFormat;
     codePath := "";
     autoDescription := false |}.

(** The configuration of a run with [--auto-description]. *)
Definition describingConfig : Config :=
  {| commentFormat := defaultCommentFormat;
     codePath := "";
     autoDescription := true |}.

(** [dst.Ident], of which the program reads the name only. *)
Record Ident := { Name : string }.

(** [dst.Decorations] is [[]string] with the methods below. *)
Definition Decorations := list string.

Definition Prepend (d : Decorations) (decs : list string) : Decorations :=
  decs ++ d.
Definition Replace (d : Decorations) (decs : list string) : Decorations :=
  [] ++ decs.
Definition All (d : Decorations) : list string := d.

(** [l[i] = x]: a panic when [i] is out of range. *)
Definition setIndex {A} (l : list A) (i : nat) (x : A) : option (list A) :=
  if decide (i < length l) then Some (<[i:=x]> l) else None.

(** [l[:n]]: a panic when [n] is out of range; [n] is an [int] in Go, and
    the one call site computes it as [len(l)-1]. *)
Definition sliceTo {A} (l : list A) (n : Z) : option (list A) :=
  if decide (0 <= n <= Z.of_nat (length l))%Z
  then Some (take (Z.to_nat n) l) else None.

Section program.
Context `{unicode.Tables}.

(** The method [IsExported] of [dst.Ident], that is
    [token.IsExported(id.Name)]. *)
Definition IsExported (id : Ident) : bool :=
  unicode.IsUpper (fst (utf8.DecodeRuneInString (Name id))).

(** The [switch] of the first loop of [Split]. *)
Definition classOf (r : rune) : Z :=
  if unicode.IsLower r then 1
  else if unicode.IsUpper r then 2
  else if unicode.IsDigit r then 3
  else 4.

(** One iteration of the first loop, on the variables [runes] and
    [lastClass]. *)
Definition splitStep (st : list (list rune) * Z) (r : rune)
  : option (list (list rune) * Z) :=
  let '(runes, lastClass) := st in
  let class := classOf r in
  runes' ← (if (class =? lastClass)%Z then
              cur ← runes !! (length runes - 1);
              setIndex runes (length runes - 1) (cur ++ [r])
            else Some (runes ++ [[r]]));
  Some (runes', class).

Fixpoint splitLoop (rs : list rune) (st : list (list rune) * Z)
  : option (list (list rune) * Z) :=
  match rs with
  | [] => Some st
  | r :: rs' => st' ← splitStep st r; splitLoop rs' st'
  end.

(** One iteration of the second loop, at index [i].  The condition is
    read on the fragments as they are now; [&&] does not evaluate its
    right operand when the left one is false. *)
Definition fixStep (runes : list (list rune)) (i : nat)
  : option (list (list rune)) :=
  a ← runes !! i;
  a0 ← a !! 0;
  cond ← (if unicode.IsUpper a0 then
            b ← runes !! (i + 1); b0 ← b !! 0; Some (unicode.IsLower b0)
          else Some false);
  if cond : bool then
    a ← runes !! i;
    z ← a !! (length a - 1);
    b ← runes !! (i + 1);
    runes ← setIndex runes (i + 1) ([z] ++ b);
    a ← runes !! i;
    a' ← sliceTo a (Z.of_nat (length a) - 1);
    setIndex runes i a'
  else Some runes.

(** [for i := 0; i < len(runes)-1; i++]: the assignments of the body
    keep [len(runes)], so the indices visited are those below the
    bound at entry. *)
Fixpoint fixLoop (idx : list nat) (runes : list (list rune))
  : option (list (list rune)) :=
  match idx with
  | [] => Some runes
  | i :: idx' => runes' ← fixStep runes i; fixLoop idx' runes'
  end.

Definition fixIndices (runes : list (list rune)) : list nat :=
  seq 0 (Z.to_nat (Z.of_nat (length runes) - 1)).

(** The third loop: the fragments that are not empty, as strings. *)
Fixpoint entriesOf (runes : list (list rune)) : list string :=
  match runes with
  | [] => []
  | s :: runes' =>
    if (0 <? length s)%nat then utf8.runesToString s :: entriesOf runes'
    else entriesOf runes'
  end.

Definition Split (src : string) : option (list string) :=
  if negb (utf8.ValidString src) then Some [src] else
  '(runes, _) ← splitLoop (utf8.rangeRunes src) ([], 0%Z);
  runes ← fixLoop (fixIndices runes) runes;
  Some (entriesOf runes).

Definition mockDoc (name : string) : option string :=
  results ← Split name;
  Some (gostrings.Join (map gostrings.ToLower results) " ").

Definition trimPrefixCases (name : string) : list string :=
  [ fmt.Sprintf "//%s " [name];
    fmt.Sprintf "// %s: " [name];
    fmt.Sprintf "// %s:" [name];
    fmt.Sprintf "//%s: " [name];
    fmt.Sprintf "//%s:" [name];
    fmt.Sprintf "// " [];
    fmt.Sprintf "//" [] ].

Fixpoint trimFirst (cases : list string) (doc : string) : string :=
  match cases with
  | [] => doc
  | c :: cases' =>
    if gostrings.HasPrefix doc c then gostrings.TrimPrefix doc c
    else trimFirst cases' doc
  end.

Definition trimPrefix (doc name : string) : string :=
  trimFirst (trimPrefixCases name) doc.

(** The result is (empty, emptyName, justName). *)
Definition containsGoDoc (decs : list string) (name : string)
  : option (bool * bool * bool) :=
  if (length decs =? 0)%nat then Some (true, false, false) else
  first ← decs !! 0;
  if String.eqb first (fmt.Sprintf "// %s" [name])
     || String.eqb first (fmt.Sprintf "//%s" [name])
  then Some (false, false, true)
  else if negb (gostrings.HasPrefix first (fmt.Sprintf "// %s " [name]))
  then Some (false, true, false)
  else Some (false, false, false).

(** [autoDecl].  The variable [doc] is built from the constant
    [defaultCommentFormat], as the source does; the package variable
    [commentFormat] is not read. *)
Definition autoDecl (cfg : Config) (ident : Ident)
    (decorations : Decorations) : option Decorations :=
  if negb (IsExported ident) then Some decorations else
  let doc := fmt.Sprintf defaultCommentFormat [Name ident] in
  doc ← (if autoDescription cfg then
           d ← mockDoc (Name ident);
           Some (fmt.Sprintf autoDescriptionFormat [Name ident; d])
         else Some doc);
  '(empty, emptyName, justName) ←
    containsGoDoc (All decorations) (Name ident);
  let decorations :=
    if empty : bool then Prepend decorations [doc] else decorations in
  decorations ←
    (if emptyName : bool then
       let all := All decorations in
       first ← all !! 0;
       let first := trimPrefix first (Name ident) in
       let first := fmt.Sprintf "// %s %s" [Name ident; first] in
       all ← setIndex all 0 first;
       Some (Replace decorations all)
     else Some decorations);
  decorations ←
    (if justName : bool then
       let all := All decorations in
       all ← setIndex all 0 doc;
       Some (Replace decorations all)
     else Some decorations);
  Some decorations.
End program.

(** ** The specification's view of the splitter *)

Section reference.
Context `{unicode.Tables}.

(** The class of a fragment is the class of its first code point. *)
Definition fragClass (g : list rune) : Z :=
  match g with
  | r :: _ => classOf r
  | [] => 0%Z
  end.

(** A fragment of the grouping step: not empty, one class throughout. *)
Definition runOf (g : list rune) : Prop :=
  g ≠ [] ∧ Forall (λ r, classOf r = fragClass g) g.

(** A fragment list as the grouping step leaves it: neighbours differ
    in class. *)
Inductive Grouped : list (list rune) → Prop :=
| Grouped_nil : Grouped []
| Grouped_one g : runOf g → Grouped [g]
| Grouped_cons g g' gs :
    runOf g → fragClass g ≠ fragClass g' → Grouped (g' :: gs) →
    Grouped (g :: g' :: gs).

(** Maximal runs of one class, read from the left: [groupFrom g c rs]
    continues the open fragment [g], of class [c], with [rs]. *)
Fixpoint groupFrom (g : list rune) (c : Z) (rs : list rune)
  : list (list rune) :=
  match rs with
  | [] => [g]
  | r :: rs' =>
    if (classOf r =? c)%Z then groupFrom (g ++ [r]) c rs'
    else g :: groupFrom [r] (classOf r) rs'
  end.

Definition classGroups (rs : list rune) : list (list rune) :=
  match rs with
  | [] => []
  | r :: rs' => groupFrom [r] (classOf r) rs'
  end.

(** Step 3 in the specification's words.  The pair of fragments [f],
    [f'] calls for a move when [f] is made of upper-case letters and
    [f'] begins with a lower-case letter. *)
Definition startsLower (f : list rune) : bool :=
  match f with
  | r :: _ => unicode.IsLower r
  | [] => false
  end.

Definition movePair (f f' : list rune) : bool :=
  forallb unicode.IsUpper f && startsLower f'.

Definition butLast (f : list rune) : list rune := take (length f - 1) f.
Definition lastOnly (f : list rune) : list rune := drop (length f - 1) f.

(** Whether the boundary after fragment [i] of the ORIGINAL list [fs]
    calls for a move. *)
Definition moveAt (fs : list (list rune)) (i : nat) : bool :=
  match fs !! i, fs !! (i + 1) with
  | Some f, Some f' => movePair f f'
  | _, _ => false
  end.

(** What fragment [i] receives from its left neighbour, and what is
    left of it: both are decided on the original list. *)
Definition received (fs : list (list rune)) (i : nat) : list rune :=
  match i with
  | O => []
  | S j => if moveAt fs j
           then match fs !! j with Some f => lastOnly f | None => [] end
           else []
  end.

Definition kept (fs : list (list rune)) (i : nat) (f : list rune)
  : list rune :=
  if moveAt fs i then butLast f else f.

Definition disambiguateSpec (fs : list (list rune)) : list (list rune) :=
  imap (λ i f, received fs i ++ kept fs i f) fs.

(** The same pass by recursion on the fragments, [carry] being what the
    fragment at the head has received. *)
Fixpoint disambiguate (carry : list rune) (fs : list (list rune))
  : list (list rune) :=
  match fs with
  | [] => []
  | f :: rest =>
    match rest with
    | f' :: _ =>
      if movePair f f'
      then (carry ++ butLast f) :: disambiguate (lastOnly f) rest
      else (carry ++ f) :: disambiguate [] rest
    | [] => [carry ++ f]
    end
  end.

(** Step 4 and the conversion to strings. *)
Definition segmentSpec (rs : list rune) : list string :=
  map utf8.runesToString
      (filter (λ f, f ≠ []) (disambiguateSpec (classGroups rs))).

(** What the second loop of [Split] may have put in front of the
    fragment [g] it is about to visit: nothing, or one upper-case letter
    in front of a lower-case fragment. *)
Definition carryOK (carry g : list rune) : Prop :=
  carry = [] ∨
  ∃ x, carry = [x] ∧ unicode.IsUpper x = true ∧ fragClass g = 1%Z.
End reference.

(** The strings of a list one after the other. *)
Fixpoint joinAll (l : list string) : string :=
  match l with
  | [] => EmptyString
  | s :: l' => s +:+ joinAll l'
  end.

(** ** The specification's view of the rewriter *)

Section rewriter_reference.
Context `{unicode.Tables}.

(** The line that [autoDecl] keeps in its variable [doc]. *)
Definition docLine (cfg : Config) (name : string) : option string :=
  if autoDescription cfg then
    d ← mockDoc name;
    Some (fmt.Sprintf autoDescriptionFormat [name; d])
  else Some (fmt.Sprintf defaultCommentFormat [name]).

(** The head line that [autoDecl] writes for a block that starts with
    [first], [doc] being the rendered line. *)
Definition newHead (name doc first : string) : string :=
  if String.eqb first ("// " +:+ name) || String.eqb first ("//" +:+ name)
  then doc
  else if negb (gostrings.HasPrefix first ("// " +:+ name +:+ " "))
  then "// " +:+ name +:+ " " +:+ trimPrefix first name
  else first.
End rewriter_reference.

(** The prefixes of the specification, in its order. *)
Definition specPrefixes (name : string) : list string :=
  [ "//" +:+ name +:+ " ";
    "// " +:+ name +:+ ": ";
    "// " +:+ name +:+ ":";
    "//" +:+ name +:+ ": ";
    "//" +:+ name +:+ ":";
    "// ";
    "//" ].

(** [StripsTo ps head r]: [r] is [head] without the first prefix of the
    list [ps] that [head] starts with, and [head] itself when it starts
    with none of them. *)
Inductive StripsTo : list string → string → string → Prop :=
| strips_none head : StripsTo [] head head
| strips_here p ps r : StripsTo (p :: ps) (p +:+ r) r
| strips_later p ps head r :
    (∀ t, head ≠ p +:+ t) → StripsTo ps head r →
    StripsTo (p :: ps) head r.

(** ** The function that [instrumentFile] passes to [dst.Inspect] *)

(** The nodes of the [dst] tree that the function tells apart, with the
    fields it reads: the name or names and the [Decs.Start] decorations.
    Every other node is [OtherNode]. *)
Inductive Spec :=
| TypeSpec (name : Ident) (start : Decorations)
| ValueSpec (names : list Ident) (start : Decorations)
| ImportSpec (start : Decorations).

Inductive Node :=
| FuncDecl (name : Ident) (start : Decorations)
| GenDecl (specs : list Spec) (start : Decorations)
| OtherNode.

Section inspect.
Context `{unicode.Tables}.

(** The body of the loop [for _, spec := range t.Specs]. *)
Definition instrumentSpec (cfg : Config) (spec : Spec) : option Spec :=
  match spec with
  | TypeSpec name start =>
    start' ← autoDecl cfg name start; Some (TypeSpec name start')
  | ValueSpec names start =>
    name ← names !! 0;
    start' ← autoDecl cfg name start; Some (ValueSpec names start')
  | ImportSpec _ => Some spec
  end.

Fixpoint instrumentSpecs (cfg : Config) (specs : list Spec)
  : option (list Spec) :=
  match specs with
  | [] => Some []
  | spec :: specs' =>
    spec' ← instrumentSpec cfg spec;
    specs'' ← instrumentSpecs cfg specs';
    Some (spec' :: specs'')
  end.

(** The function literal: the node as it is left, and the boolean it
    returns to [dst.Inspect]. *)
Definition inspectNode (cfg : Config) (n : Node) : option (Node * bool) :=
  match n with
  | FuncDecl name start =>
    start' ← autoDecl cfg name start; Some (FuncDecl name start', true)
  | GenDecl specs start =>
    if (length specs =? 1)%nat then
      s ← specs !! 0;
      match s with
      | TypeSpec name _ =>
        start' ← autoDecl cfg name start; Some (GenDecl specs start', true)
      | ValueSpec names _ =>
        name ← names !! 0;
        start' ← autoDecl cfg name start; Some (GenDecl specs start', true)
      | ImportSpec _ => Some (n, true)
      end
    else
      specs' ← instrumentSpecs cfg specs; Some (GenDecl specs' start, true)
  | OtherNode => Some (n, true)
  end.
End inspect.

(** A value specification as the parser builds it names at least one
    identifier. *)
Definition specNamed (spec : Spec) : Prop :=
  match spec with
  | ValueSpec names _ => names ≠ []
  | _ => True
  end.

Definition nodeNamed (n : Node) : Prop :=
  match n with
  | GenDecl specs _ => Forall specNamed specs
  | _ => True
  end.

(** A node without its decorations. *)
Definition bareSpec (spec : Spec) : Spec :=
  match spec with
  | TypeSpec name _ => TypeSpec name []
  | ValueSpec names _ => ValueSpec names []
  | ImportSpec _ => ImportSpec []
  end.

Definition bareNode (n : Node) : Node :=
  match n with
  | FuncDecl name _ => FuncDecl name []
  | GenDecl specs _ => GenDecl (map bareSpec specs) []
  | OtherNode => OtherNode
  end.

(** ** The words of [Split] *)

Section words.
Context `{unicode.Tables}.

(** The two shapes of the fragments that [Split] returns: code points of
    one class, or one upper-case letter and lower-case letters after
    it. *)
Definition oneClass (f : list rune) : Prop :=
  ∃ c, Forall (λ r, classOf r = c) f.

Definition capitalised (f : list rune) : Prop :=
  ∃ x g, f = x :: g ∧ unicode.IsUpper x = true ∧ g ≠ []
         ∧ Forall (λ r, unicode.IsLower r = true) g.

Definition wordShape (f : list rune) : Prop :=
  f ≠ [] ∧ (oneClass f ∨ capitalised f).
End words.

(** ** Runes and their encodings *)

(** A rune as [range] reads it back from its encoding: itself when it is
    a Unicode scalar value, [RuneError] otherwise. *)
Definition readBack (r : rune) : rune :=
  if ((r <? 0) || (utf8.MaxRune <? r)
      || ((utf8.surrogateMin <=? r) && (r <=? utf8.surrogateMax)))%Z
  then utf8.RuneError else r.

(** The Unicode scalar values: the code points that are not surrogates. *)
Definition scalar (r : rune) : Prop :=
  (0 <= r <= 0x10FFFF)%Z ∧ ¬ (0xD800 <= r <= 0xDFFF)%Z.

(** ** The file filters of [instrumentDir] *)

(** [strings.HasSuffix]:
    [len(s) >= len(suffix) && s[len(s)-len(suffix):] == suffix]. *)
Definition HasSuffix (s suffix : string) : bool :=
  (String.length suffix <=? String.length s)%nat
  && String.eqb
       (gostrings.sliceFrom (String.length s - String.length suffix) s)
       suffix.

(** [strings.Contains]: [substr] occurs in [s] at some index. *)
Fixpoint Contains (s substr : string) : bool :=
  gostrings.HasPrefix s substr
  || match s with
     | EmptyString => false
     | String _ s' => Contains s' substr
     end.

(** [os.FileInfo], of which the program reads [Name()] and [IsDir()]. *)
Record FileInfo := { fileName : string; isDir : bool }.

Definition testsFilter (info : FileInfo) : bool :=
  negb (HasSuffix (fileName info) "_test.go").

Section filters.
(** The file system as [generatedFilter] sees it: for the path it opens,
    [None] when [os.Open] fails, and otherwise the text that
    [scanner.Text()] holds after one [scanner.Scan()]. *)
Variable firstLine : string → option string.

(** [generatedFilter]; [None] is the panic on a file that cannot be
    opened. *)
Definition generatedFilter (path : string) (info : FileInfo) : option bool :=
  if Contains (fileName info) "generated" then Some false else
  line ← firstLine (path +:+ "/" +:+ fileName info);
  if Contains line "generated" || Contains line "GENERATED"
  then Some false else Some true.

(** The filter that [instrumentDir] gives to [parser.ParseDir]:
    [testsFilter(info) && generatedFilter(path, info)]. *)
Definition dirFilter (path : string) (info : FileInfo) : option bool :=
  if testsFilter info then generatedFilter path info else Some false.
End filters.

(** [s] ends with [suffix]; [sub] occurs in [s]. *)
Definition endsWith (s suffix : string) : Prop := ∃ p, s = p +:+ suffix.
Definition occursIn (sub s : string) : Prop := ∃ a b, s = a +:+ sub +:+ b.

(** ** [mapDirectory] and [filepath.Walk] *)

(** The errors that the walk tells apart: [filepath.SkipDir] and the
    others. *)
Inductive error :=
| SkipDir
| Failure (msg : string).

(** The tree of files below the directory that is walked, as [Walk]
    finds it: the entries of a directory come in the order of their
    names.  [Unreadable] is a directory whose entries cannot be read and
    [Missing] an entry on which [os.Lstat] fails. *)
#[warnings="-register-all"]
Inductive entry :=
| File (name : string)
| Dir (name : string) (children : list entry)
| Unreadable (name : string) (err : error)
| Missing (name : string) (err : error).

Definition entryName (e : entry) : string :=
  match e with
  | File name | Dir name _ | Unreadable name _ | Missing name _ => name
  end.

(** The entries that are no directories, for which [SkipDir] means the
    rest of the directory they are in. *)
Definition isFile (e : entry) : bool :=
  match e with
  | File _ => true
  | _ => false
  end.

(** A [filepath.WalkFunc] with what it does: the paths on which it calls
    the operation, in order, and the error it returns; [None] is a
    panic. *)
Definition WalkFunc : Type :=
  string → option FileInfo → option error →
  option (list string * option error).

(** [filepath.Join] of a clean path and a file name. *)
Definition joinPath (path name : string) : string := path +:+ "/" +:+ name.

(** Whether the loop of [walk] over the entries of a directory returns
    after the entry [c] has given [r]. *)
Definition returnsAfter (c : entry) (r : option error) : bool :=
  match r with
  | None => false
  | Some SkipDir => isFile c
  | Some (Failure _) => true
  end.

Section walk.
Variable fn : WalkFunc.

(** [walk] of [path/filepath]; for [Missing] it is the call of the
    function that the loop makes itself. *)
Fixpoint walk (path : string) (e : entry) {struct e}
  : option (list string * option error) :=
  match e with
  | File name => fn path (Some {| fileName := name; isDir := false |}) None
  | Missing _ err => fn path None (Some err)
  | Unreadable name err =>
    fn path (Some {| fileName := name; isDir := true |}) (Some err)
  | Dir name children =>
    '(log, err1) ← fn path (Some {| fileName := name; isDir := true |}) None;
    match err1 with
    | Some _ => Some (log, err1)
    | None =>
      '(log', r) ←
        (fix entries (cs : list entry) :=
           match cs with
           | [] => Some ([], None)
           | c :: cs' =>
             '(l1, r1) ← walk (joinPath path (entryName c)) c;
             if returnsAfter c r1 then Some (l1, r1)
             else '(l2, r2) ← entries cs'; Some (l1 ++ l2, r2)
           end) children;
      Some (log ++ log', r)
    end
  end.

(** The loop of [walk] on its own. *)
Fixpoint walkEntries (path : string) (cs : list entry)
  : option (list string * option error) :=
  match cs with
  | [] => Some ([], None)
  | c :: cs' =>
    '(l1, r1) ← walk (joinPath path (entryName c)) c;
    if returnsAfter c r1 then Some (l1, r1)
    else '(l2, r2) ← walkEntries path cs'; Some (l1 ++ l2, r2)
  end.

(** [filepath.Walk]. *)
Definition Walk (root : string) (tree : entry)
  : option (list string * option error) :=
  '(log, r) ← walk root tree;
  Some (log, match r with Some SkipDir => None | _ => r end).
End walk.

Section mapDirectory.
Variable operation : string → option error.

(** The function that [mapDirectory] gives to [Walk]. *)
Definition walkFunc : WalkFunc := λ path info err,
  match err with
  | Some e => Some ([], Some e)
  | None =>
    info ← info;
    if String.eqb (fileName info) "vendor" then Some ([], Some SkipDir)
    else if isDir info then Some ([path], operation path)
    else Some ([], None)
  end.

(** [mapDirectory dir operation] on the tree [tree] that is at [dir]:
    the directories on which [operation] is called, and the result. *)
Definition mapDirectory (dir : string) (tree : entry)
  : option (list string * option error) :=
  Walk walkFunc dir tree.
End mapDirectory.

(** The directories of a tree that are neither named [vendor] nor inside
    a directory named [vendor], with their paths. *)
Inductive liveDir : string → entry → string → Prop :=
| live_here path name cs :
    name ≠ "vendor" → liveDir path (Dir name cs) path
| live_below path name cs c p :
    name ≠ "vendor" → c ∈ cs →
    liveDir (joinPath path (entryName c)) c p →
    liveDir path (Dir name cs) p.

(** All the directories of a tree, each before what it holds. *)
Fixpoint allDirs (path : string) (e : entry) {struct e} : list string :=
  match e with
  | Dir _ children =>
    path :: (fix below (cs : list entry) :=
               match cs with
               | [] => []
               | c :: cs' =>
                 allDirs (joinPath path (entryName c)) c ++ below cs'
               end) children
  | _ => []
  end.

(** A tree that can be read and in which nothing is named [vendor]. *)
Fixpoint plain (e : entry) {struct e} : Prop :=
  match e with
  | File name => name ≠ "vendor"
  | Dir name children =>
    name ≠ "vendor"
    ∧ (fix all (cs : list entry) :=
         match cs with
         | [] => True
         | c :: cs' => plain c ∧ all cs'
         end) children
  | _ => False
  end.

(** Every call of the operation gave [nil], or the last one gave an
    error, the only one to do so, and that error is the result. *)
Definition stopsAtFailure (operation : string → option error)
    (log : list string) (r : option error) : Prop :=
  Forall (λ p, operation p = None) log
  ∨ ∃ l p, log = l ++ [p] ∧ Forall (λ q, operation q = None) l
           ∧ operation p ≠ None ∧ r = operation p.

(** ** Inputs for the examples *)

(** A disk on which every file begins with the line of a code
    generator. *)
Definition generatedDisk (path : string) : option string :=
  Some "// Code generated by protoc-gen-go. DO NOT EDIT.".

(** An operation that never fails, one that fails on one directory, and
    a small tree. *)
Definition succeeds (path : string) : option error := None.

Definition failsOnApi (path : string) : option error :=
  if String.eqb path "src/api" then Some (Failure "parse error") else None.

Definition smallTree : entry :=
  Dir "src" [ Dir "api" [File "api.go"];
              File "main.go";
              Dir "web" [File "web.go"] ].

(** * Facts *)

(** ** UTF-8: reading a valid string and writing it back *)

Section bytes.
Local Open Scope Z_scope.

Lemma byteZ_range c : 0 <= byteZ c < 256.
Proof. unfold byteZ. pose proof (N_ascii_bounded c). lia. Qed.

Lemma land_FF x : Z.land x 0xFF = x mod 256.
Proof. change 0xFF with (Z.ones 8). by rewrite Z.land_ones. Qed.

Lemma land_maskx x : Z.land x utf8.maskx = x mod 64.
Proof. change utf8.maskx with (Z.ones 6). by rewrite Z.land_ones. Qed.

Lemma land_mask2 x : Z.land x utf8.mask2 = x mod 32.
Proof. change utf8.mask2 with (Z.ones 5). by rewrite Z.land_ones. Qed.

Lemma land_mask3 x : Z.land x utf8.mask3 = x mod 16.
Proof. change utf8.mask3 with (Z.ones 4). by rewrite Z.land_ones. Qed.

Lemma land_mask4 x : Z.land x utf8.mask4 = x mod 8.
Proof. change utf8.mask4 with (Z.ones 3). by rewrite Z.land_ones. Qed.

Lemma toByte_byteZ c : toByte (byteZ c) = c.
Proof.
  unfold toByte. rewrite land_FF.
  rewrite Z.mod_small by apply byteZ_range.
  unfold byteZ. rewrite N2Z.id. apply ascii_N_embedding.
Qed.

(** Bits that do not overlap add up. *)
Lemma lor_disjoint (hi lo n : Z) :
  0 <= n → 0 <= lo < 2 ^ n → Z.lor (hi * 2 ^ n) lo = hi * 2 ^ n + lo.
Proof.
  intros Hn Hlo.
  assert (Z.land (hi * 2 ^ n) lo = 0) as Hd.
  { apply Z.bits_inj'. intros i Hi. rewrite Z.land_spec, Z.bits_0.
    destruct (Z.lt_ge_cases i n) as [Hlt|Hge].
    - rewrite Z.mul_pow2_bits_low by done. done.
    - destruct (Z.eq_dec lo 0) as [->|Hz].
      + rewrite Z.bits_0. apply andb_false_r.
      + rewrite (Z.bits_above_log2 lo i); [apply andb_false_r|lia|].
        apply Z.lt_le_trans with n; [|done].
        apply Z.log2_lt_pow2; lia. }
  rewrite <- Z.lxor_lor by done. symmetry. by apply Z.add_nocarry_lxor.
Qed.

Lemma shl_lor (x k lo : Z) :
  0 <= k → 0 <= lo < 2 ^ k → Z.lor (Z.shiftl x k) lo = x * 2 ^ k + lo.
Proof. intros. rewrite Z.shiftl_mul_pow2 by done. by apply lor_disjoint. Qed.

Lemma toByte_lor (t y hi n : Z) (c : ascii) :
  t = hi * 2 ^ n → 0 <= n → 0 <= y < 2 ^ n → t + y = byteZ c →
  toByte (Z.lor t y) = c.
Proof.
  intros -> Hn Hy Hc. rewrite lor_disjoint by done.
  rewrite Hc. apply toByte_byteZ.
Qed.

Ltac byte_eq hi n :=
  apply (toByte_lor _ _ hi n); [reflexivity | lia | |];
  rewrite ?land_maskx, ?Z.shiftr_div_pow2 by lia;
  change (2 ^ 3) with 8; change (2 ^ 4) with 16; change (2 ^ 5) with 32;
  change (2 ^ 6) with 64; change (2 ^ 12) with 4096;
  change (2 ^ 18) with 262144;
  unfold utf8.t2, utf8.t3, utf8.t4, utf8.tx;
  Z.div_mod_to_equations; lia.

Lemma encode_decode2 c0 c1 :
  0xC2 <= byteZ c0 <= 0xDF → 0x80 <= byteZ c1 <= 0xBF →
  utf8.EncodeRune
    (Z.lor (Z.shiftl (Z.land (byteZ c0) utf8.mask2) 6)
           (Z.land (byteZ c1) utf8.maskx))
  = String c0 (String c1 EmptyString).
Proof.
  intros H0 H1.
  rewrite land_mask2, land_maskx.
  rewrite shl_lor by (try lia; apply Z.mod_pos_bound; lia).
  change (2 ^ 6) with 64.
  set (r := byteZ c0 mod 32 * 64 + byteZ c1 mod 64).
  assert (r = (byteZ c0 - 192) * 64 + (byteZ c1 - 128)) as Hr
    by (unfold r; Z.div_mod_to_equations; lia).
  clearbody r. unfold utf8.EncodeRune, utf8.rune1Max, utf8.rune2Max.
  destruct (Z.leb_spec 0 r); [|lia].
  destruct (Z.leb_spec r 0x7F); [lia|].
  destruct (Z.leb_spec r 0x7FF); [|lia]. cbn [andb].
  f_equal; [|f_equal].
  - byte_eq 3 6.
  - byte_eq 2 6.
Qed.

Lemma lor_add (x lo n : Z) :
  0 <= n → x mod 2 ^ n = 0 → 0 <= lo < 2 ^ n → Z.lor x lo = x + lo.
Proof.
  intros Hn Hx Hlo.
  assert (x = x / 2 ^ n * 2 ^ n) as Hd.
  { pose proof (Z.div_mod x (2 ^ n)). lia. }
  rewrite Hd at 1. rewrite lor_disjoint by done. lia.
Qed.

Lemma encode_decode3 c0 c1 c2 :
  0xE0 <= byteZ c0 <= 0xEF → 0x80 <= byteZ c1 <= 0xBF →
  0x80 <= byteZ c2 <= 0xBF →
  (byteZ c0 = 0xE0 → 0xA0 <= byteZ c1) →
  (byteZ c0 = 0xED → byteZ c1 <= 0x9F) →
  utf8.EncodeRune
    (Z.lor (Z.lor (Z.shiftl (Z.land (byteZ c0) utf8.mask3) 12)
                  (Z.shiftl (Z.land (byteZ c1) utf8.maskx) 6))
           (Z.land (byteZ c2) utf8.maskx))
  = String c0 (String c1 (String c2 EmptyString)).
Proof.
  intros H0 H1 H2 Hlo Hhi.
  rewrite land_mask3, !land_maskx, !Z.shiftl_mul_pow2 by lia.
  change (2 ^ 6) with 64. change (2 ^ 12) with 4096.
  rewrite (lor_add (_ * 4096) (_ * 64) 12)
    by (change (2 ^ 12) with 4096; Z.div_mod_to_equations; lia).
  rewrite (lor_add _ _ 6)
    by (change (2 ^ 6) with 64; Z.div_mod_to_equations; lia).
  set (r := _ + _ + _).
  assert (r = (byteZ c0 - 224) * 4096 + (byteZ c1 - 128) * 64
              + (byteZ c2 - 128)) as Hr
    by (unfold r; Z.div_mod_to_equations; lia).
  clearbody r.
  unfold utf8.EncodeRune, utf8.rune1Max, utf8.rune2Max, utf8.rune3Max,
    utf8.MaxRune, utf8.surrogateMin, utf8.surrogateMax.
  destruct (Z.leb_spec 0 r); [|lia].
  destruct (Z.leb_spec r 0x7F); [lia|].
  destruct (Z.leb_spec r 0x7FF); [lia|].
  destruct (Z.ltb_spec r 0); [lia|].
  destruct (Z.ltb_spec 0x10FFFF r); [lia|].
  destruct (Z.leb_spec 0xD800 r), (Z.leb_spec r 0xDFFF); try lia;
    cbn [andb orb]; (destruct (Z.leb_spec r 0xFFFF); [|lia]);
    unfold utf8.encode3; (f_equal; [|f_equal; [|f_equal]]).
  all: first [byte_eq 7 5 | byte_eq 2 6].
Qed.

Lemma encode_decode4 c0 c1 c2 c3 :
  0xF0 <= byteZ c0 <= 0xF4 → 0x80 <= byteZ c1 <= 0xBF →
  0x80 <= byteZ c2 <= 0xBF → 0x80 <= byteZ c3 <= 0xBF →
  (byteZ c0 = 0xF0 → 0x90 <= byteZ c1) →
  (byteZ c0 = 0xF4 → byteZ c1 <= 0x8F) →
  utf8.EncodeRune
    (Z.lor (Z.lor (Z.lor (Z.shiftl (Z.land (byteZ c0) utf8.mask4) 18)
                         (Z.shiftl (Z.land (byteZ c1) utf8.maskx) 12))
                  (Z.shiftl (Z.land (byteZ c2) utf8.maskx) 6))
           (Z.land (byteZ c3) utf8.maskx))
  = String c0 (String c1 (String c2 (String c3 EmptyString))).
Proof.
  intros H0 H1 H2 H3 Hlo Hhi.
  rewrite land_mask4, !land_maskx, !Z.shiftl_mul_pow2 by lia.
  change (2 ^ 6) with 64. change (2 ^ 12) with 4096.
  change (2 ^ 18) with 262144.
  rewrite (lor_add (_ * 262144) (_ * 4096) 18)
    by (change (2 ^ 18) with 262144; Z.div_mod_to_equations; lia).
  rewrite (lor_add _ (_ * 64) 12)
    by (change (2 ^ 12) with 4096; Z.div_mod_to_equations; lia).
  rewrite (lor_add _ _ 6)
    by (change (2 ^ 6) with 64; Z.div_mod_to_equations; lia).
  set (r := _ + _ + _ + _).
  assert (r = (byteZ c0 - 240) * 262144 + (byteZ c1 - 128) * 4096
              + (byteZ c2 - 128) * 64 + (byteZ c3 - 128)) as Hr
    by (unfold r; Z.div_mod_to_equations; lia).
  clearbody r.
  unfold utf8.EncodeRune, utf8.rune1Max, utf8.rune2Max, utf8.rune3Max,
    utf8.MaxRune, utf8.surrogateMin, utf8.surrogateMax.
  destruct (Z.leb_spec 0 r); [|lia].
  destruct (Z.leb_spec r 0x7F); [lia|].
  destruct (Z.leb_spec r 0x7FF); [lia|].
  destruct (Z.ltb_spec r 0); [lia|].
  destruct (Z.ltb_spec 0x10FFFF r); [lia|].
  destruct (Z.leb_spec 0xD800 r), (Z.leb_spec r 0xDFFF); try lia;
    cbn [andb orb]; (destruct (Z.leb_spec r 0xFFFF); [lia|]);
    (f_equal; [|f_equal; [|f_equal; [|f_equal]]]).
  all: first [byte_eq 15 4 | byte_eq 2 6].
Qed.

Lemma first_info b :
  0 <= b < 256 → (b <? utf8.RuneSelf) = false →
  (utf8.first b =? utf8.xx) = false →
  ∃ sz lo hi,
    Z.land (utf8.first b) 7 = sz ∧
    utf8.acceptRanges (Z.shiftr (utf8.first b) 4) = (lo, hi) ∧
    (utf8.as_ <=? utf8.first b) = false ∧
    0x80 <= lo ∧ hi <= 0xBF ∧
    ((sz = 2 ∧ 0xC2 <= b <= 0xDF) ∨
     (sz = 3 ∧ 0xE0 <= b <= 0xEF ∧
      (b = 0xE0 → lo = 0xA0) ∧ (b = 0xED → hi = 0x9F)) ∨
     (sz = 4 ∧ 0xF0 <= b <= 0xF4 ∧
      (b = 0xF0 → lo = 0x90) ∧ (b = 0xF4 → hi = 0x8F))).
Proof.
  intros Hb Hself Hxx. unfold utf8.RuneSelf in Hself.
  apply Z.ltb_ge in Hself. revert Hxx. unfold utf8.first.
  repeat match goal with
         | |- context [if (?x <? ?y) then _ else _] =>
           destruct (Z.ltb_spec x y)
         | |- context [if (?x =? ?y) then _ else _] =>
           destruct (Z.eqb_spec x y)
         end; try lia; try discriminate; intros _;
    eexists _, _, _; (split; [reflexivity|]); (split; [reflexivity|]);
    (split; [reflexivity|]);
    cbv [utf8.locb utf8.hicb utf8.s1 utf8.s2 utf8.s3 utf8.s4 utf8.s5
         utf8.s6 utf8.s7];
    cbn;
    repeat match goal with
           | |- context [Z.land ?x ?y] =>
             let v := eval vm_compute in (Z.land x y) in
             change (Z.land x y) with v
           end;
    lia.
Qed.

Lemma in_range b lo hi :
  (b <? lo) || (hi <? b) = false → lo <= b <= hi.
Proof.
  intros Hb. apply orb_false_iff in Hb as [H1 H2].
  apply Z.ltb_ge in H1, H2. lia.
Qed.

(** One step of reading a valid string: the rune that [range] yields
    first, and the bytes left, which the encoding of the rune precedes. *)
Lemma valid_head c0 r0 :
  utf8.ValidString (String c0 r0) = true →
  ∃ r rest,
    utf8.rangeRunes (String c0 r0) = r :: utf8.rangeRunes rest ∧
    utf8.ValidString rest = true ∧
    String c0 r0 = utf8.EncodeRune r +:+ rest ∧
    (String.length rest < String.length (String c0 r0))%nat.
Proof.
  intros Hv. cbn [utf8.ValidString] in Hv.
  cbn [utf8.rangeRunes]. unfold utf8.DecodeRuneInString.
  cbn [byteAt String.get].
  assert ((Z.of_nat (String.length (String c0 r0)) <? 1) = false) as ->.
  { apply Z.ltb_ge. cbn [String.length]. lia. }
  pose proof (byteZ_range c0) as Hb0.
  destruct (byteZ c0 <? utf8.RuneSelf) eqn:Hself.
  - (* one byte *)
    apply Z.ltb_lt in Hself. unfold utf8.RuneSelf in Hself.
    assert (utf8.first (byteZ c0) = utf8.as_) as ->.
    { unfold utf8.first. destruct (Z.ltb_spec (byteZ c0) 0x80); [done|lia]. }
    cbn. exists (byteZ c0), r0. split; [done|]. split; [done|].
    split; [|lia]. unfold utf8.EncodeRune, utf8.rune1Max.
    destruct (Z.leb_spec 0 (byteZ c0)); [|lia].
    destruct (Z.leb_spec (byteZ c0) 0x7F); [|lia].
    cbn. by rewrite toByte_byteZ.
  - destruct (utf8.first (byteZ c0) =? utf8.xx) eqn:Hxx; [done|].
    destruct (first_info _ Hb0 Hself Hxx)
      as (sz & lo & hi & Hsz & Hacc & Has & Hlo & Hhi & Hcase).
    rewrite Hsz, Hacc in *. rewrite Has. cbn [fst snd] in *.
    destruct (Z.of_nat (String.length (String c0 r0)) <? sz) eqn:Hn;
      [done|].
    destruct r0 as [|c1 r1]; [done|]. cbn [byteAt String.get] in *.
    destruct ((byteZ c1 <? lo) || (hi <? byteZ c1)) eqn:H1; [done|].
    apply in_range in H1.
    destruct Hcase as [[-> H0]|[(-> & H0 & Hl & Hh)|(-> & H0 & Hl & Hh)]].
    + (* two bytes *)
      cbn in Hv. cbn [Z.leb Z.compare Pos.compare Pos.compare_cont].
      eexists _, r1. split; [reflexivity|]. split; [done|].
      split; [|cbn; lia].
      rewrite encode_decode2 by lia. done.
    + (* three bytes *)
      cbn in Hv. cbn [Z.leb Z.compare Pos.compare Pos.compare_cont].
      destruct r1 as [|c2 r2]; [done|]. cbn [byteAt String.get] in *.
      destruct ((byteZ c2 <? utf8.locb) || (utf8.hicb <? byteZ c2)) eqn:H2;
        [done|].
      apply in_range in H2. unfold utf8.locb, utf8.hicb in H2.
      eexists _, r2. split; [reflexivity|]. split; [done|].
      split; [|cbn; lia].
      rewrite encode_decode3 by lia. done.
    + (* four bytes *)
      cbn in Hv. cbn [Z.leb Z.compare Pos.compare Pos.compare_cont].
      destruct r1 as [|c2 r2]; [done|]. cbn [byteAt String.get] in *.
      destruct ((byteZ c2 <? utf8.locb) || (utf8.hicb <? byteZ c2)) eqn:H2;
        [done|].
      apply in_range in H2. unfold utf8.locb, utf8.hicb in H2.
      destruct r2 as [|c3 r3]; [done|]. cbn [byteAt String.get] in *.
      destruct ((byteZ c3 <? utf8.locb) || (utf8.hicb <? byteZ c3)) eqn:H3;
        [done|].
      apply in_range in H3. unfold utf8.locb, utf8.hicb in H3.
      eexists _, r3. split; [reflexivity|]. split; [done|].
      split; [|cbn; lia].
      rewrite encode_decode4 by lia. done.
Qed.

Lemma rangeRunes_roundtrip_le n : ∀ s,
  (String.length s <= n)%nat → utf8.ValidString s = true →
  utf8.runesToString (utf8.rangeRunes s) = s.
Proof.
  induction n as [|n IH]; intros [|c0 r0] Hlen Hv; try done.
  - cbn in Hlen. lia.
  - destruct (valid_head c0 r0 Hv) as (r & rest & -> & Hv' & Hs & Hl).
    cbn [utf8.runesToString]. rewrite IH; [done| |done].
    cbn [String.length] in *. lia.
Qed.

Lemma rangeRunes_roundtrip s :
  utf8.ValidString s = true → utf8.runesToString (utf8.rangeRunes s) = s.
Proof. by apply (rangeRunes_roundtrip_le (String.length s)). Qed.
End bytes.

(** ** The loops of [Split] *)

Ltac option_step := cbn [mbind option_bind app lookup list_lookup].

Section split_facts.
Context `{unicode.Tables}.

Lemma classOf_range r : (1 <= classOf r <= 4)%Z.
Proof. unfold classOf. repeat case_match; lia. Qed.

Lemma classOf_lower r : classOf r = 1%Z ↔ unicode.IsLower r = true.
Proof. unfold classOf. repeat case_match; split; (congruence || lia). Qed.

Lemma classOf_upper r :
  classOf r = 2%Z ↔ unicode.IsLower r = false ∧ unicode.IsUpper r = true.
Proof.
  unfold classOf. repeat case_match; split; intros; destruct_and?;
    (congruence || lia || auto).
Qed.

Lemma setIndex_last {A} (l : list A) (x y : A) :
  setIndex (l ++ [x]) (length (l ++ [x]) - 1) y = Some (l ++ [y]).
Proof.
  unfold setIndex. rewrite length_app. simpl.
  replace (length l + 1 - 1) with (length l) by lia.
  case_decide; [|lia].
  f_equal. rewrite insert_app_r_alt by lia.
  by rewrite Nat.sub_diag.
Qed.

Lemma lookup_last_snoc {A} (l : list A) (x : A) :
  (l ++ [x]) !! (length (l ++ [x]) - 1) = Some x.
Proof.
  rewrite length_app. simpl.
  replace (length l + 1 - 1) with (length l) by lia.
  by rewrite list_lookup_middle.
Qed.

Lemma splitLoop_open rs : ∀ gs g c,
  ∃ c', splitLoop rs (gs ++ [g], c) = Some (gs ++ groupFrom g c rs, c').
Proof.
  induction rs as [|r rs IH]; intros gs g c; simpl.
  - by exists c.
  - destruct (Z.eqb_spec (classOf r) c) as [Hc|Hc]; simpl.
    + rewrite lookup_last_snoc. simpl. rewrite setIndex_last. simpl.
      rewrite Hc. apply IH.
    + destruct (IH (gs ++ [g]) [r] (classOf r)) as [c' Hc'].
      exists c'. rewrite Hc'. by rewrite <- app_assoc.
Qed.

Lemma splitLoop_classGroups rs :
  ∃ c, splitLoop rs ([], 0%Z) = Some (classGroups rs, c).
Proof.
  destruct rs as [|r rs]; simpl.
  - by exists 0%Z.
  - pose proof (classOf_range r).
    destruct (classOf r =? 0)%Z eqn:Hc; [lia|]. simpl.
    apply (splitLoop_open rs [] [r] (classOf r)).
Qed.


Lemma fragClass_app g g' : g ≠ [] → fragClass (g ++ g') = fragClass g.
Proof. by destruct g. Qed.

Lemma runOf_single r : runOf [r].
Proof. split; [done|]. by constructor. Qed.

Lemma runOf_snoc g r :
  runOf g → classOf r = fragClass g → runOf (g ++ [r]).
Proof.
  intros [Hne Hall] Hr. split.
  - by destruct g.
  - rewrite fragClass_app by done.
    apply Forall_app. split; [done|]. by constructor.
Qed.

Lemma groupFrom_head rs : ∀ g c,
  ∃ g' rest, groupFrom g c rs = (g ++ g') :: rest.
Proof.
  induction rs as [|r rs IH]; intros g c; simpl.
  - exists [], []. by rewrite app_nil_r.
  - destruct (classOf r =? c)%Z.
    + destruct (IH (g ++ [r]) c) as (g' & rest & ->).
      exists (r :: g'), rest. by rewrite <- app_assoc.
    + exists [], (groupFrom [r] (classOf r) rs). by rewrite app_nil_r.
Qed.

Lemma groupFrom_Grouped rs : ∀ g,
  runOf g → Grouped (groupFrom g (fragClass g) rs).
Proof.
  induction rs as [|r rs IH]; intros g Hg; simpl.
  - by constructor.
  - destruct (Z.eqb_spec (classOf r) (fragClass g)) as [Hc|Hc].
    + rewrite <- (fragClass_app g [r]) by apply Hg.
      apply IH. by apply runOf_snoc.
    + pose proof (IH [r] (runOf_single r)) as HG. simpl in HG.
      destruct (groupFrom_head rs [r] (classOf r)) as (g' & rest & Heq).
      rewrite Heq in *. constructor; [done| |done].
      simpl. congruence.
Qed.

Lemma classGroups_Grouped rs : Grouped (classGroups rs).
Proof.
  destruct rs as [|r rs]; simpl; [constructor|].
  apply (groupFrom_Grouped rs [r]), runOf_single.
Qed.

Lemma groupFrom_concat rs : ∀ g c, concat (groupFrom g c rs) = g ++ rs.
Proof.
  induction rs as [|r rs IH]; intros g c; simpl.
  - by rewrite app_nil_r.
  - destruct (classOf r =? c)%Z; simpl.
    + by rewrite IH, <- app_assoc.
    + by rewrite IH.
Qed.

Lemma classGroups_concat rs : concat (classGroups rs) = rs.
Proof. destruct rs as [|r rs]; [done|]. apply (groupFrom_concat rs [r]). Qed.

Lemma butLast_lastOnly f : butLast f ++ lastOnly f = f.
Proof. apply take_drop. Qed.

Lemma disambiguate_pair carry f f' rest :
  disambiguate carry (f :: f' :: rest) =
  if movePair f f'
  then (carry ++ butLast f) :: disambiguate (lastOnly f) (f' :: rest)
  else (carry ++ f) :: disambiguate [] (f' :: rest).
Proof. reflexivity. Qed.

Lemma disambiguate_concat fs : ∀ f carry,
  concat (disambiguate carry (f :: fs)) = carry ++ concat (f :: fs).
Proof.
  induction fs as [|f' fs IH]; intros f carry.
  - simpl. by rewrite !app_nil_r.
  - rewrite disambiguate_pair.
    destruct (movePair f f'); rewrite !concat_cons, IH.
    + rewrite <- !app_assoc. f_equal.
      by rewrite app_assoc, butLast_lastOnly.
    + by rewrite <- app_assoc.
Qed.

Lemma lookup_mid1 {A} (pre : list A) x y rest :
  (pre ++ x :: y :: rest) !! (length pre + 1) = Some y.
Proof.
  rewrite lookup_app_r by lia.
  by replace (length pre + 1 - length pre) with 1 by lia.
Qed.

Lemma setIndex_mid0 {A} (pre : list A) x z rest :
  setIndex (pre ++ x :: rest) (length pre) z = Some (pre ++ z :: rest).
Proof.
  unfold setIndex. rewrite length_app. simpl.
  case_decide; [|lia]. f_equal.
  rewrite insert_app_r_alt by lia. by rewrite Nat.sub_diag.
Qed.

Lemma setIndex_mid1 {A} (pre : list A) x y z rest :
  setIndex (pre ++ x :: y :: rest) (length pre + 1) z
  = Some (pre ++ x :: z :: rest).
Proof.
  unfold setIndex. rewrite length_app. simpl.
  case_decide; [|lia]. f_equal.
  rewrite insert_app_r_alt by lia.
  by replace (length pre + 1 - length pre) with 1 by lia.
Qed.

Lemma lookup_last_lastOnly (f : list rune) :
  f ≠ [] → ∃ z, f !! (length f - 1) = Some z ∧ lastOnly f = [z].
Proof.
  intros Hne. destruct (f !! (length f - 1)) as [z|] eqn:Hz.
  - exists z. split; [done|]. unfold lastOnly.
    rewrite (drop_S _ _ _ Hz). rewrite drop_ge; [done|]. lia.
  - apply lookup_ge_None in Hz. destruct f; [done|]. simpl in Hz. lia.
Qed.

Lemma sliceTo_butLast (f : list rune) :
  f ≠ [] → sliceTo f (Z.of_nat (length f) - 1) = Some (butLast f).
Proof.
  intros Hne. unfold sliceTo, butLast.
  destruct f as [|r f]; [done|]. cbn [length].
  case_decide; [|lia]. do 2 f_equal. lia.
Qed.

Lemma startsLower_class f : startsLower f = true → fragClass f = 1%Z.
Proof. destruct f as [|r f]; [done|]. simpl. apply classOf_lower. Qed.

Lemma class_startsLower f :
  f ≠ [] → fragClass f ≠ 1%Z → startsLower f = false.
Proof.
  destruct f as [|r f]; [done|]. simpl. intros _ Hc.
  destruct (unicode.IsLower r) eqn:Hl; [|done].
  by apply classOf_lower in Hl.
Qed.

(** On fragments of the grouping step, the test the code makes on the
    first code point of the left fragment says as much as "made of
    upper-case letters". *)
Lemma movePair_head r g f' :
  runOf (r :: g) → fragClass (r :: g) ≠ fragClass f' →
  movePair (r :: g) f' = unicode.IsUpper r && startsLower f'.
Proof.
  intros [_ Hall] Hne. unfold movePair.
  destruct (startsLower f') eqn:Hs; [|by rewrite !andb_false_r].
  rewrite !andb_true_r. apply startsLower_class in Hs.
  rewrite Hs in Hne. cbn [forallb].
  destruct (unicode.IsUpper r) eqn:Hu; [|done]. simpl.
  assert (fragClass (r :: g) = 2%Z) as H2.
  { simpl. apply classOf_upper. split; [|done].
    destruct (unicode.IsLower r) eqn:Hl; [|done].
    apply classOf_lower in Hl. simpl in Hne. congruence. }
  rewrite H2 in Hall. apply Forall_cons in Hall as [_ Hall].
  apply forallb_forall. intros x Hx. apply list_elem_of_In in Hx.
  rewrite Forall_forall in Hall. by apply classOf_upper, Hall.
Qed.

Lemma movePair_lower g f' :
  fragClass g = 1%Z → runOf f' → fragClass g ≠ fragClass f' →
  startsLower f' = false.
Proof.
  intros Hg [Hne _] Hd. apply class_startsLower; [done|congruence].
Qed.

Lemma setIndex_length {A} (l l' : list A) i x :
  setIndex l i x = Some l' → length l' = length l.
Proof.
  unfold setIndex. case_decide; [|done]. intros [= <-]. apply length_insert.
Qed.

(** The body of the second loop keeps [len(runes)]: the bound of the
    loop is the same at every iteration. *)
Lemma fixStep_length runes i runes' :
  fixStep runes i = Some runes' → length runes' = length runes.
Proof.
  unfold fixStep. intros Hs.
  repeat match type of Hs with
         | (?m ≫= _) = Some _ =>
           let E := fresh "E" in
           destruct m eqn:E; cbn [mbind option_bind] in Hs; [|done]
         | (if ?c then _ else _) = Some _ => destruct c eqn:?
         end.
  - apply setIndex_length in Hs.
    match goal with
    | E : setIndex runes _ _ = Some _ |- _ => apply setIndex_length in E
    end.
    congruence.
  - by injection Hs as <-.
Qed.

Lemma fixStep_at pre carry g g' rest :
  runOf g → runOf g' → fragClass g ≠ fragClass g' → carryOK carry g →
  fixStep (pre ++ (carry ++ g) :: g' :: rest) (length pre) =
  Some (if movePair g g'
        then pre ++ (carry ++ butLast g) :: (lastOnly g ++ g') :: rest
        else pre ++ (carry ++ g) :: g' :: rest).
Proof.
  intros Hg Hg' Hd Hc. unfold fixStep.
  rewrite (list_lookup_middle pre _ _ (length pre) eq_refl).
  destruct g' as [|r' g']; [exfalso; by apply (proj1 Hg')|].
  destruct Hc as [->|(x & -> & Hx & Hcl)].
  - destruct g as [|r g]; [exfalso; by apply (proj1 Hg)|].
    rewrite (movePair_head r g (r' :: g') Hg Hd). option_step.
    destruct (unicode.IsUpper r) eqn:Hu; [|done].
    rewrite lookup_mid1. option_step. cbn [startsLower andb].
    destruct (unicode.IsLower r') eqn:Hl; [|done].
    destruct (lookup_last_lastOnly (r :: g)) as (z & Hz & Hlast); [done|].
    rewrite Hz. option_step.
    rewrite setIndex_mid1. option_step.
    rewrite (list_lookup_middle pre _ _ (length pre) eq_refl). option_step.
    rewrite sliceTo_butLast by done. option_step.
    rewrite setIndex_mid0. by rewrite Hlast.
  - option_step. rewrite Hx, lookup_mid1. option_step.
    pose proof (movePair_lower g (r' :: g') Hcl Hg' Hd) as Hs.
    unfold movePair. rewrite Hs, andb_false_r.
    simpl in Hs. by rewrite Hs.
Qed.

Lemma movePair_carry f f' :
  runOf f → fragClass f ≠ fragClass f' → movePair f f' = true →
  carryOK (lastOnly f) f'.
Proof.
  intros Hf Hd Hm. right.
  destruct (lookup_last_lastOnly f) as (z & Hz & ->); [apply Hf|].
  exists z. split; [done|].
  unfold movePair in Hm. apply andb_true_iff in Hm as [Hall Hs].
  split; [|by apply startsLower_class].
  rewrite forallb_forall in Hall. apply Hall.
  apply list_elem_of_In. by eapply list_elem_of_lookup_2.
Qed.

(** The second loop from index [length pre] on, the fragment there
    holding what it received, computes the specification's pass. *)
Lemma fixLoop_from rest : ∀ pre carry g,
  Grouped (g :: rest) → carryOK carry g →
  fixLoop (seq (length pre) (length rest)) (pre ++ (carry ++ g) :: rest)
  = Some (pre ++ disambiguate carry (g :: rest)).
Proof.
  induction rest as [|g' rest IH]; intros pre carry g HG Hc.
  - done.
  - inversion HG as [| |? ? ? Hg Hd HG']; subst.
    assert (runOf g') as Hg' by (inversion HG'; done).
    cbn [length seq fixLoop].
    rewrite (fixStep_at pre carry g g' rest Hg Hg' Hd Hc).
    cbn [mbind option_bind]. rewrite disambiguate_pair.
    destruct (movePair g g') eqn:Hm.
    + pose proof (IH (pre ++ [carry ++ butLast g]) (lastOnly g) g' HG'
                    (movePair_carry g g' Hg Hd Hm)) as IH'.
      rewrite length_app, <- app_assoc in IH'. cbn [length app] in IH'.
      replace (length pre + 1) with (S (length pre)) in IH' by lia.
      rewrite IH'. by rewrite <- app_assoc.
    + pose proof (IH (pre ++ [carry ++ g]) [] g' HG' (or_introl eq_refl))
        as IH'.
      rewrite length_app, <- app_assoc in IH'. cbn [length app] in IH'.
      replace (length pre + 1) with (S (length pre)) in IH' by lia.
      rewrite IH'. by rewrite <- app_assoc.
Qed.

Lemma fixLoop_Grouped gs :
  Grouped gs → fixLoop (fixIndices gs) gs = Some (disambiguate [] gs).
Proof.
  intros HG. unfold fixIndices. destruct gs as [|g rest]; [done|].
  cbn [length].
  replace (Z.to_nat (Z.of_nat (S (length rest)) - 1)) with (length rest)
    by lia.
  apply (fixLoop_from rest [] [] g HG). by left.
Qed.
End split_facts.

(** ** Strings, and what [Split] returns *)

Section string_facts.
Lemma sapp_cons c (s t : string) : String c s +:+ t = String c (s +:+ t).
Proof. reflexivity. Qed.

Lemma sapp_nil_l (s : string) : "" +:+ s = s.
Proof. reflexivity. Qed.

Lemma sapp_nil_r (s : string) : s +:+ "" = s.
Proof. induction s as [|c s IH]; [done|]. rewrite !sapp_cons. by f_equal. Qed.

Lemma sapp_assoc (s t u : string) : (s +:+ t) +:+ u = s +:+ t +:+ u.
Proof. induction s as [|c s IH]; [done|]. rewrite !sapp_cons. by f_equal. Qed.

Lemma slength_app (s t : string) :
  String.length (s +:+ t) = String.length s + String.length t.
Proof.
  induction s as [|c s IH]; [done|]. rewrite sapp_cons. cbn [String.length].
  by rewrite IH.
Qed.
End string_facts.

Section split_spec.
Context `{unicode.Tables}.

Lemma moveAt_middle pre f f' rest :
  moveAt (pre ++ f :: f' :: rest) (length pre) = movePair f f'.
Proof.
  unfold moveAt.
  rewrite (list_lookup_middle pre _ _ (length pre) eq_refl).
  by rewrite lookup_mid1.
Qed.

Lemma moveAt_last pre f : moveAt (pre ++ [f]) (length pre) = false.
Proof.
  unfold moveAt.
  rewrite (list_lookup_middle pre _ _ (length pre) eq_refl).
  rewrite lookup_ge_None_2; [done|]. rewrite length_app. simpl. lia.
Qed.

Lemma received_next pre f rest :
  received (pre ++ f :: rest) (S (length pre)) =
  if moveAt (pre ++ f :: rest) (length pre) then lastOnly f else [].
Proof.
  unfold received.
  by rewrite (list_lookup_middle pre _ _ (length pre) eq_refl).
Qed.

(** The recursive pass and the pass stated fragment by fragment agree,
    from any position of the list on. *)
Lemma disambiguate_from rest : ∀ pre f,
  disambiguate (received (pre ++ f :: rest) (length pre)) (f :: rest) =
  imap (λ i g, received (pre ++ f :: rest) (length pre + i)
               ++ kept (pre ++ f :: rest) (length pre + i) g)
       (f :: rest).
Proof.
  induction rest as [|f' rest IH]; intros pre f.
  - cbn [disambiguate imap]. rewrite Nat.add_0_r.
    unfold kept. by rewrite moveAt_last.
  - rewrite disambiguate_pair, imap_cons, Nat.add_0_r.
    unfold kept at 1. rewrite moveAt_middle.
    pose proof (IH (pre ++ [f]) f') as IH'.
    rewrite <- app_assoc, length_app in IH'. cbn [app length] in IH'.
    replace (length pre + 1) with (S (length pre)) in IH' by lia.
    rewrite received_next, moveAt_middle in IH'.
    assert (imap ((λ i g, received (pre ++ f :: f' :: rest) (length pre + i)
                          ++ kept (pre ++ f :: f' :: rest) (length pre + i) g)
                  ∘ S) (f' :: rest)
            = imap (λ i g, received (pre ++ f :: f' :: rest)
                             (S (length pre) + i)
                           ++ kept (pre ++ f :: f' :: rest)
                                (S (length pre) + i) g) (f' :: rest)) as ->.
    { apply imap_ext. intros i x _. simpl.
      by replace (length pre + S i) with (S (length pre + i)) by lia. }
    rewrite <- IH'. by destruct (movePair f f').
Qed.

Lemma disambiguate_spec fs : disambiguate [] fs = disambiguateSpec fs.
Proof.
  destruct fs as [|f rest]; [done|].
  apply (disambiguate_from rest [] f).
Qed.

Lemma entriesOf_filter (fs : list (list rune)) :
  entriesOf fs = map utf8.runesToString (filter (λ f, f ≠ []) fs).
Proof.
  induction fs as [|f fs IH]; [done|].
  cbn [entriesOf]. rewrite filter_cons. destruct f as [|r f].
  - cbn. by case_decide.
  - cbn [length Nat.ltb Nat.leb]. case_decide; [|done].
    cbn [map]. by rewrite IH.
Qed.

(** What [Split] computes on valid text. *)
Lemma Split_valid src :
  utf8.ValidString src = true →
  Split src = Some (segmentSpec (utf8.rangeRunes src)).
Proof.
  intros Hv. unfold Split. rewrite Hv. cbn [negb].
  destruct (splitLoop_classGroups (utf8.rangeRunes src)) as [c ->].
  option_step.
  rewrite (fixLoop_Grouped _ (classGroups_Grouped _)). option_step.
  unfold segmentSpec. by rewrite entriesOf_filter, disambiguate_spec.
Qed.

Lemma Split_invalid src :
  utf8.ValidString src = false → Split src = Some [src].
Proof. intros Hv. unfold Split. by rewrite Hv. Qed.

Lemma Split_total src : ∃ entries, Split src = Some entries.
Proof.
  destruct (utf8.ValidString src) eqn:Hv.
  - eexists. by apply Split_valid.
  - eexists. by apply Split_invalid.
Qed.

Lemma runesToString_app rs rs' :
  utf8.runesToString (rs ++ rs') =
  utf8.runesToString rs +:+ utf8.runesToString rs'.
Proof.
  induction rs as [|r rs IH]; [done|].
  cbn [app utf8.runesToString]. by rewrite IH, sapp_assoc.
Qed.

Lemma joinAll_fragments (fs : list (list rune)) :
  joinAll (map utf8.runesToString (filter (λ f, f ≠ []) fs))
  = utf8.runesToString (concat fs).
Proof.
  induction fs as [|f fs IH]; [done|].
  rewrite filter_cons. cbn [concat]. rewrite runesToString_app.
  case_decide as Hf.
  - cbn [map joinAll]. by rewrite IH.
  - destruct f as [|r f]; [by rewrite IH|done].
Qed.

Lemma concat_nonempty (fs : list (list rune)) :
  concat (filter (λ f, f ≠ []) fs) = concat fs.
Proof.
  induction fs as [|f fs IH]; [done|].
  rewrite filter_cons. case_decide as Hf.
  - cbn [concat]. by rewrite IH.
  - destruct f as [|r f]; [by rewrite IH|done].
Qed.

Lemma disambiguateSpec_concat rs :
  concat (disambiguateSpec (classGroups rs)) = rs.
Proof.
  rewrite <- disambiguate_spec.
  destruct (classGroups rs) as [|f fs] eqn:Hg.
  - destruct rs as [|r rs]; [done|]. simpl in Hg.
    destruct (groupFrom_head rs [r] (classOf r)) as (? & ? & Heq).
    congruence.
  - rewrite disambiguate_concat. cbn [app].
    by rewrite <- Hg, classGroups_concat.
Qed.

Lemma segmentSpec_join rs :
  joinAll (segmentSpec rs) = utf8.runesToString rs.
Proof.
  unfold segmentSpec.
  by rewrite joinAll_fragments, disambiguateSpec_concat.
Qed.
End split_spec.

(** ** The rewriter *)

Section prefix_facts.
Lemma HasPrefix_app (p t : string) : gostrings.HasPrefix (p +:+ t) p = true.
Proof.
  induction p as [|c p IH]; [done|].
  rewrite sapp_cons. cbn [gostrings.HasPrefix].
  by rewrite Ascii.eqb_refl, IH.
Qed.

Lemma HasPrefix_split (s p : string) :
  gostrings.HasPrefix s p = true →
  s = p +:+ gostrings.sliceFrom (String.length p) s.
Proof.
  revert s. induction p as [|c p IH]; intros s Hp; [done|].
  destruct s as [|c' s]; [done|]. cbn [gostrings.HasPrefix] in Hp.
  apply andb_true_iff in Hp as [Hc Hp]. apply Ascii.eqb_eq in Hc as ->.
  rewrite sapp_cons. cbn [String.length gostrings.sliceFrom].
  by rewrite <- IH.
Qed.

Lemma HasPrefix_false (s p : string) :
  gostrings.HasPrefix s p = false → ∀ t, s ≠ p +:+ t.
Proof. intros Hp t ->. by rewrite HasPrefix_app in Hp. Qed.

Lemma sliceFrom_app (p t : string) :
  gostrings.sliceFrom (String.length p) (p +:+ t) = t.
Proof. induction p as [|c p IH]; [by destruct t|]. by rewrite sapp_cons. Qed.

Lemma TrimPrefix_app (p t : string) : gostrings.TrimPrefix (p +:+ t) p = t.
Proof.
  unfold gostrings.TrimPrefix. by rewrite HasPrefix_app, sliceFrom_app.
Qed.

Lemma HasPrefix_cancel (p s q : string) :
  gostrings.HasPrefix (p +:+ s) (p +:+ q) = gostrings.HasPrefix s q.
Proof.
  induction p as [|c p IH]; [done|].
  rewrite !sapp_cons. cbn [gostrings.HasPrefix].
  by rewrite Ascii.eqb_refl, IH.
Qed.

Lemma eqb_cancel (p s q : string) :
  String.eqb (p +:+ s) (p +:+ q) = String.eqb s q.
Proof.
  induction p as [|c p IH]; [done|].
  rewrite !sapp_cons. cbn [String.eqb].
  by rewrite Ascii.eqb_refl, IH.
Qed.

Lemma HasPrefix_length (s p : string) :
  gostrings.HasPrefix s p = true → String.length p ≤ String.length s.
Proof.
  intros Hp. rewrite (HasPrefix_split s p Hp) at 1.
  rewrite slength_app. lia.
Qed.

Lemma eqb_length (s t : string) :
  String.length s ≠ String.length t → String.eqb s t = false.
Proof. intros Hl. apply String.eqb_neq. by intros ->. Qed.

(** The trimming loop of the code returns what the specification's
    relation describes. *)
Lemma trimFirst_StripsTo ps doc : StripsTo ps doc (trimFirst ps doc).
Proof.
  induction ps as [|p ps IH]; cbn [trimFirst]; [constructor|].
  destruct (gostrings.HasPrefix doc p) eqn:Hp.
  - rewrite (HasPrefix_split doc p Hp) at 1.
    rewrite (HasPrefix_split doc p Hp) at 2.
    rewrite TrimPrefix_app. constructor.
  - constructor; [|done]. by apply HasPrefix_false.
Qed.

Lemma StripsTo_fun ps doc r r' :
  StripsTo ps doc r → StripsTo ps doc r' → r = r'.
Proof.
  intros Hr. revert r'. induction Hr as [doc|p ps r|p ps doc r Hno Hr IH];
    intros r' Hr'.
  - by inversion Hr'.
  - inversion Hr' as [|p' ps' r'' Heq|? ? ? ? Hno']; subst.
    + by eapply (inj (String.append p)).
    + by destruct (Hno' r).
  - inversion Hr' as [|p' ps' r'' Heq|? ? ? ? Hno']; subst.
    + by destruct (Hno r').
    + by apply IH.
Qed.
End prefix_facts.

Section rewriter_facts.
Context `{unicode.Tables}.

Lemma Sprintf_name name : fmt.Sprintf "// %s" [name] = "// " +:+ name.
Proof. cbn [fmt.Sprintf]. by rewrite sapp_nil_r. Qed.

Lemma Sprintf_name_tight name : fmt.Sprintf "//%s" [name] = "//" +:+ name.
Proof. cbn [fmt.Sprintf]. by rewrite sapp_nil_r. Qed.

Lemma Sprintf_name_space name :
  fmt.Sprintf "// %s " [name] = "// " +:+ name +:+ " ".
Proof. reflexivity. Qed.

Lemma Sprintf_default name :
  fmt.Sprintf defaultCommentFormat [name]
  = "// " +:+ name +:+ " " +:+ "missing godoc.".
Proof. reflexivity. Qed.

Lemma Sprintf_described name d :
  fmt.Sprintf "// %s %s" [name; d] = "// " +:+ name +:+ " " +:+ d.
Proof. cbn [fmt.Sprintf]. by rewrite sapp_nil_r. Qed.

Lemma trimPrefixCases_spec name : trimPrefixCases name = specPrefixes name.
Proof. reflexivity. Qed.

Lemma mockDoc_total name : ∃ d, mockDoc name = Some d.
Proof.
  unfold mockDoc. destruct (Split_total name) as [entries ->].
  by eexists.
Qed.

Lemma docLine_total cfg name :
  ∃ d, docLine cfg name = Some ("// " +:+ name +:+ " " +:+ d).
Proof.
  unfold docLine. destruct (autoDescription cfg).
  - destruct (mockDoc_total name) as [d ->]. exists d.
    option_step. unfold autoDescriptionFormat.
    by rewrite Sprintf_described.
  - by exists "missing godoc.".
Qed.

Lemma autoDecl_exported cfg ident decs :
  IsExported ident = true →
  autoDecl cfg ident decs =
  doc ← docLine cfg (Name ident);
  Some (match decs with
        | [] => [doc]
        | first :: rest => newHead (Name ident) doc first :: rest
        end).
Proof.
  intros Hexp. unfold autoDecl, docLine. rewrite Hexp. cbn [negb].
  destruct (autoDescription cfg).
  - destruct (mockDoc (Name ident)) as [d|]; [|done]. option_step.
    destruct decs as [|first rest]; [done|].
    unfold containsGoDoc, All, newHead. cbn [length Nat.eqb]. option_step.
    rewrite Sprintf_name, Sprintf_name_tight, Sprintf_name_space.
    destruct (_ || _); [done|].
    destruct (gostrings.HasPrefix first _); [done|].
    cbn [negb]. option_step. by rewrite Sprintf_described.
  - option_step.
    destruct decs as [|first rest]; [done|].
    unfold containsGoDoc, All, newHead. cbn [length Nat.eqb]. option_step.
    rewrite Sprintf_name, Sprintf_name_tight, Sprintf_name_space.
    destruct (_ || _); [done|].
    destruct (gostrings.HasPrefix first _); [done|].
    cbn [negb]. option_step. by rewrite Sprintf_described.
Qed.
End rewriter_facts.

Section rewriter_cases.
Context `{unicode.Tables}.

Lemma newHead_wellFormed name doc x :
  newHead name doc ("// " +:+ name +:+ " " +:+ x)
  = "// " +:+ name +:+ " " +:+ x.
Proof.
  unfold newHead.
  rewrite (eqb_length _ ("// " +:+ name)), (eqb_length _ ("//" +:+ name)).
  - cbn [orb].
    replace ("// " +:+ name +:+ " " +:+ x)
      with (("// " +:+ name +:+ " ") +:+ x) at 1
      by (by rewrite !sapp_assoc).
    by rewrite HasPrefix_app.
  - rewrite !slength_app. cbn [String.length]. lia.
  - rewrite !slength_app. cbn [String.length]. lia.
Qed.

Lemma newHead_idem name d first :
  let doc := "// " +:+ name +:+ " " +:+ d in
  newHead name doc (newHead name doc first) = newHead name doc first.
Proof.
  intros doc.
  assert ((∃ x, newHead name doc first = "// " +:+ name +:+ " " +:+ x) ∨
          newHead name doc (newHead name doc first)
          = newHead name doc first) as [[x ->]|Hfix];
    [|apply newHead_wellFormed|done].
  unfold newHead at 1 3 4.
  destruct (_ || _) eqn:Hjust; [left; by exists d|].
  destruct (gostrings.HasPrefix first _) eqn:Hp; cbn [negb].
  - right. unfold newHead. by rewrite Hjust, Hp.
  - left. by eexists.
Qed.

Lemma Decode_one c t :
  (byteZ c < 0x80)%Z →
  utf8.DecodeRuneInString (String c t) = (byteZ c, 1).
Proof.
  intros Hc. unfold utf8.DecodeRuneInString. cbn [byteAt String.get].
  assert ((Z.of_nat (String.length (String c t)) <? 1)%Z = false) as ->.
  { apply Z.ltb_ge. cbn [String.length]. lia. }
  assert (utf8.first (byteZ c) = utf8.as_) as ->.
  { unfold utf8.first. destruct (Z.ltb_spec (byteZ c) 0x80); [done|lia]. }
  done.
Qed.

Lemma exported_first ident :
  IsExported ident = true →
  ∃ c t, Name ident = String c t ∧ c ≠ " "%char.
Proof.
  unfold IsExported. destruct (Name ident) as [|c t]; intros Hexp.
  - change (unicode.Upper utf8.RuneError = true) in Hexp.
    by rewrite unicode.RuneError_not_Upper in Hexp.
  - exists c, t. split; [done|]. intros ->.
    rewrite Decode_one in Hexp by done. by vm_compute in Hexp.
Qed.
End rewriter_cases.

Section bare_prefix.
Context `{unicode.Tables}.

Lemma HasPrefix_self (p : string) : gostrings.HasPrefix p p = true.
Proof. rewrite <- (sapp_nil_r p) at 1. apply HasPrefix_app. Qed.

Lemma TrimPrefix_self (p : string) : gostrings.TrimPrefix p p = "".
Proof. rewrite <- (sapp_nil_r p) at 1. apply TrimPrefix_app. Qed.

Lemma eqb_app_self (t x : string) :
  String.eqb (t +:+ x) t = String.eqb x "".
Proof. rewrite <- (sapp_nil_r t) at 2. apply eqb_cancel. Qed.

Lemma HasPrefix_cons a p b s :
  gostrings.HasPrefix (String b s) (String a p)
  = Ascii.eqb a b && gostrings.HasPrefix s p.
Proof. reflexivity. Qed.

Ltac chars Hc Hc' :=
  rewrite ?Hc, ?Hc', ?Ascii.eqb_refl;
  repeat match goal with
         | |- context [Ascii.eqb ?a ?b] =>
           let v := eval vm_compute in (Ascii.eqb a b) in
           change (Ascii.eqb a b) with v
         end.

Ltac crunch Hc Hc' :=
  repeat (progress
    (rewrite ?sapp_cons, ?sapp_nil_l;
     cbn [String.eqb gostrings.HasPrefix trimFirst];
     chars Hc Hc';
     rewrite ?HasPrefix_cancel, ?eqb_app_self, ?eqb_cancel,
       ?HasPrefix_self, ?TrimPrefix_self;
     cbn [andb orb negb])).

(** A head line that is one of the prefixes and nothing more. *)
Lemma newHead_bare_prefix c t doc head :
  c ≠ " "%char → In head (specPrefixes (String c t)) →
  newHead (String c t) doc head = "// " +:+ String c t +:+ " ".
Proof.
  intros Hne Hin.
  assert (Ascii.eqb c " " = false) as Hc by (by apply Ascii.eqb_neq).
  assert (Ascii.eqb " " c = false) as Hc'
    by (by rewrite Ascii.eqb_sym).
  unfold newHead, trimPrefix. rewrite trimPrefixCases_spec.
  unfold specPrefixes in *. cbn [In] in Hin.
  destruct Hin as [<-|[<-|[<-|[<-|[<-|[<-|[<-|[]]]]]]]]; crunch Hc Hc'.
  all: done.
Qed.
End bare_prefix.

Lemma joinRest_empty_sep (l : list string) :
  gostrings.joinRest l "" = joinAll l.
Proof.
  induction l as [|e l IH]; [done|].
  cbn [gostrings.joinRest joinAll]. by rewrite sapp_nil_l, IH.
Qed.

Lemma Join_empty_sep (l : list string) : gostrings.Join l "" = joinAll l.
Proof.
  destruct l as [|e l]; [done|].
  cbn [gostrings.Join joinAll]. by rewrite joinRest_empty_sep.
Qed.

(** * The examples of the README *)

Section examples.
Context `{unicode.Tables}.

Example missing_comment :
  autoDecl defaultConfig {| Name := "CamelCase" |} []
  = Some ["// CamelCase missing godoc."].
Proof. reflexivity. Qed.

Example missing_comment_described :
  autoDecl describingConfig {| Name := "CamelCase" |} []
  = Some ["// CamelCase camel case"].
Proof. reflexivity. Qed.

Example missing_name :
  autoDecl defaultConfig {| Name := "CamelCase" |} ["// camel case"]
  = Some ["// CamelCase camel case"].
Proof. reflexivity. Qed.

Example missing_description :
  autoDecl describingConfig {| Name := "CamelCase" |} ["// CamelCase"]
  = Some ["// CamelCase camel case"].
Proof. reflexivity. Qed.

Example with_a_colon :
  autoDecl defaultConfig {| Name := "CamelCase" |}
    ["// CamelCase: camel case"]
  = Some ["// CamelCase camel case"].
Proof. reflexivity. Qed.

Example well_formed :
  autoDecl defaultConfig {| Name := "CamelCase" |}
    ["// CamelCase camel case"]
  = Some ["// CamelCase camel case"].
Proof. reflexivity. Qed.

Example glued_name :
  autoDecl defaultConfig {| Name := "CamelCase" |}
    ["//CamelCasecamel case"]
  = Some ["// CamelCase CamelCasecamel case"].
Proof. reflexivity. Qed.

Example split_acronym :
  Split "HTTPServer2xx" = Some ["HTTP"; "Server"; "2"; "xx"].
Proof. reflexivity. Qed.

Example split_single_capital : Split "Loader" = Some ["Loader"].
Proof. reflexivity. Qed.
End examples.

(** * The claims *)

Section claims.
Context `{unicode.Tables}.

(** C1, as amended.  For the identifier CamelCase, the block
    [//CamelCase2: camel case] and the default configuration, [autoDecl]
    returns [// CamelCase CamelCase2: camel case]: the head line starts
    with none of the prefixes that carry the name CamelCase followed by
    a space or a colon, so only the two slashes are stripped.  The line
    [// CamelCase2 camel case] is what it returns for the identifier
    CamelCase2. *)
Theorem C1_colon_case_of_the_declared_name :
  autoDecl defaultConfig {| Name := "CamelCase" |}
    ["//CamelCase2: camel case"]
  = Some ["// CamelCase CamelCase2: camel case"]
  ∧ autoDecl defaultConfig {| Name := "CamelCase2" |}
      ["//CamelCase2: camel case"]
    = Some ["// CamelCase2 camel case"].
Proof. split; reflexivity. Qed.

(** C2.  Rewriting is idempotent: for an exported name, any block and
    any configuration, [autoDecl] returns a block that [autoDecl] leaves
    as it is. *)
Theorem C2_rewrite_idempotent cfg ident lines :
  IsExported ident = true →
  ∃ out, autoDecl cfg ident lines = Some out
         ∧ autoDecl cfg ident out = Some out.
Proof.
  intros Hexp. rewrite !autoDecl_exported by done.
  destruct (docLine_total cfg (Name ident)) as [d Hd].
  rewrite Hd. option_step.
  destruct lines as [|first rest]; eexists; (split; [reflexivity|]);
    rewrite autoDecl_exported, Hd by done; option_step; do 2 f_equal.
  - apply newHead_wellFormed.
  - apply newHead_idem.
Qed.

(** C3.  The second loop of [Split] is one pass from left to right over
    the fragments of the grouping loop, and the moves it makes are the
    ones the original fragments call for: whatever the runes, the
    grouping loop returns a fragment list [fs], and the second loop run
    on [fs] returns [disambiguateSpec fs], in which fragment [i] loses
    its last code point exactly when fragment [i] of [fs] is made of
    upper-case letters and fragment [i+1] of [fs] begins with a
    lower-case letter, and receives that code point in front.  On valid
    text [Split] returns the fragments of that list that are not empty;
    and [Split] of PDFLoader is PDF, Loader. *)
Theorem C3_disambiguation_single_pass :
  (∀ rs, ∃ fs c,
      splitLoop rs ([], 0%Z) = Some (fs, c)
      ∧ fixLoop (fixIndices fs) fs = Some (disambiguateSpec fs))
  ∧ (∀ src, utf8.ValidString src = true →
            Split src = Some (segmentSpec (utf8.rangeRunes src)))
  ∧ Split "PDFLoader" = Some ["PDF"; "Loader"].
Proof.
  split; [|split].
  - intros rs. destruct (splitLoop_classGroups rs) as [c Hc].
    exists (classGroups rs), c. split; [done|].
    rewrite <- disambiguate_spec.
    apply fixLoop_Grouped, classGroups_Grouped.
  - apply Split_valid.
  - reflexivity.
Qed.

(** C4.  For an exported name and a block whose head line neither
    starts with [// name ] nor is [// name] or [//name], the head line
    becomes [// name r], where [r] is the old head line without the
    first prefix of the specification's list that it starts with (the
    whole line when it starts with none); the other lines stay. *)
Theorem C4_missing_name_prefix cfg ident head rest :
  IsExported ident = true →
  (∀ t, head ≠ "// " +:+ Name ident +:+ " " +:+ t) →
  head ≠ "// " +:+ Name ident →
  head ≠ "//" +:+ Name ident →
  ∃ r, autoDecl cfg ident (head :: rest)
       = Some (("// " +:+ Name ident +:+ " " +:+ r) :: rest)
       ∧ StripsTo (specPrefixes (Name ident)) head r.
Proof.
  intros Hexp Hp Hn1 Hn2. rewrite autoDecl_exported by done.
  destruct (docLine_total cfg (Name ident)) as [d ->]. option_step.
  exists (trimPrefix head (Name ident)). split.
  - unfold newHead. apply String.eqb_neq in Hn1, Hn2.
    rewrite Hn1, Hn2. cbn [orb].
    destruct (gostrings.HasPrefix head _) eqn:Hh; [|done].
    apply HasPrefix_split in Hh. rewrite !sapp_assoc in Hh.
    by destruct (Hp _ Hh).
  - rewrite <- trimPrefixCases_spec. apply trimFirst_StripsTo.
Qed.

(** C5, on the code.  The format of the configuration is never read:
    [autoDecl] returns the same block whatever the format.  So, without
    auto-description, the empty block of CamelCase becomes the line of
    the default template, and so does the head line [// CamelCase], also
    under the format [// %s is undocumented.], whose rendering for CamelCase is
    [// CamelCase is undocumented.]. *)
Theorem C5_format_not_read :
  (∀ cfg format ident decs,
      autoDecl {| commentFormat := format; codePath := codePath cfg;
                  autoDescription := autoDescription cfg |} ident decs
      = autoDecl cfg ident decs)
  ∧ (let cfg := {| commentFormat := "// %s is undocumented."; codePath := "";
                   autoDescription := false |} in
     autoDecl cfg {| Name := "CamelCase" |} []
     = Some ["// CamelCase missing godoc."]
     ∧ autoDecl cfg {| Name := "CamelCase" |} ["// CamelCase"; "// more"]
       = Some ["// CamelCase missing godoc."; "// more"]
     ∧ fmt.Sprintf (commentFormat cfg) ["CamelCase"]
       = "// CamelCase is undocumented.").
Proof. repeat split; reflexivity. Qed.

(** C6.  For a name that is valid UTF-8, [Split] returns the strings of
    fragments, none of them empty, that put one after the other are the
    code points of the name in their order; joined with the empty
    separator the strings are the name. *)
Theorem C6_split_covers_name src :
  utf8.ValidString src = true →
  ∃ frags,
    Split src = Some (map utf8.runesToString frags)
    ∧ Forall (λ f, f ≠ []) frags
    ∧ concat frags = utf8.rangeRunes src
    ∧ gostrings.Join (map utf8.runesToString frags) "" = src.
Proof.
  intros Hv.
  exists (filter (λ f, f ≠ [])
            (disambiguateSpec (classGroups (utf8.rangeRunes src)))).
  split; [by apply Split_valid|]. split; [|split].
  - apply Forall_forall. intros f Hf.
    by apply list_elem_of_filter in Hf as [? _].
  - by rewrite concat_nonempty, disambiguateSpec_concat.
  - rewrite Join_empty_sep.
    change (joinAll (segmentSpec (utf8.rangeRunes src)) = src).
    rewrite segmentSpec_join. by apply rangeRunes_roundtrip.
Qed.

(** C7.  For an exported name and a block that is not empty, [autoDecl]
    returns a block of the same length in which every line but the
    first is the line of the input at the same index. *)
Theorem C7_only_head_changes cfg ident lines :
  IsExported ident = true → lines ≠ [] →
  ∃ out, autoDecl cfg ident lines = Some out
         ∧ length out = length lines
         ∧ ∀ i, 0 < i → out !! i = lines !! i.
Proof.
  intros Hexp Hne. rewrite autoDecl_exported by done.
  destruct (docLine_total cfg (Name ident)) as [d ->]. option_step.
  destruct lines as [|first rest]; [done|].
  eexists. split; [reflexivity|]. split; [done|].
  intros [|i] Hi; [lia|done].
Qed.

(** C8.  Nothing panics: [autoDecl] returns a block for every
    identifier, block and configuration; [Split] returns for every
    string; and both loops of [Split] run to their end on every rune
    sequence, every index they use being in range. *)
Theorem C8_total :
  (∀ cfg ident decs, ∃ out, autoDecl cfg ident decs = Some out)
  ∧ (∀ src, ∃ entries, Split src = Some entries)
  ∧ (∀ rs, ∃ fs c fs',
        splitLoop rs ([], 0%Z) = Some (fs, c)
        ∧ fixLoop (fixIndices fs) fs = Some fs').
Proof.
  split; [|split].
  - intros cfg ident decs. destruct (IsExported ident) eqn:Hexp.
    + rewrite autoDecl_exported by done.
      destruct (docLine_total cfg (Name ident)) as [d ->]. by eexists.
    + unfold autoDecl. rewrite Hexp. by eexists.
  - apply Split_total.
  - intros rs. destruct (splitLoop_classGroups rs) as [c Hc].
    exists (classGroups rs), c. eexists. split; [done|].
    apply fixLoop_Grouped, classGroups_Grouped.
Qed.

(** C9.  The block of a name that is not exported is returned as it
    is. *)
Theorem C9_not_exported_unchanged cfg ident lines :
  IsExported ident = false → autoDecl cfg ident lines = Some lines.
Proof. intros Hexp. unfold autoDecl. by rewrite Hexp. Qed.

(** C10.  For an exported name and a head line that is one of the
    prefixes of the list and nothing more, the head line becomes
    [// name ] with a space at its end and no description. *)
Theorem C10_bare_prefix_head cfg ident head rest :
  IsExported ident = true →
  In head (specPrefixes (Name ident)) →
  autoDecl cfg ident (head :: rest)
  = Some (("// " +:+ Name ident +:+ " ") :: rest).
Proof.
  intros Hexp Hin. rewrite autoDecl_exported by done.
  destruct (docLine_total cfg (Name ident)) as [d ->]. option_step.
  destruct (exported_first ident Hexp) as (c & t & Hname & Hc).
  rewrite Hname in *. by rewrite newHead_bare_prefix.
Qed.
End claims.

(** ** The claims at concrete inputs *)

(** C1 as the specification states it fails: the block returned for the
    identifier CamelCase is not [// CamelCase2 camel case]. *)
Lemma C1_counterexample :
  @autoDecl unicode.asciiTables defaultConfig {| Name := "CamelCase" |}
    ["//CamelCase2: camel case"]
  ≠ Some ["// CamelCase2 camel case"].
Proof. vm_compute. discriminate. Qed.

Lemma C2_witness :
  @IsExported unicode.asciiTables {| Name := "CamelCase" |} = true
  ∧ ∃ out,
      @autoDecl unicode.asciiTables describingConfig {| Name := "CamelCase" |}
        ["//CamelCase: camel case"; "// more"] = Some out
      ∧ @autoDecl unicode.asciiTables describingConfig
          {| Name := "CamelCase" |} out = Some out.
Proof.
  split; [reflexivity|].
  apply (@C2_rewrite_idempotent unicode.asciiTables). reflexivity.
Defined.

Lemma C4_witness :
  @IsExported unicode.asciiTables {| Name := "CamelCase" |} = true
  ∧ (∀ t, "// CamelCase: camel case" ≠ "// CamelCase " +:+ t)
  ∧ "// CamelCase: camel case" ≠ "// CamelCase"
  ∧ "// CamelCase: camel case" ≠ "//CamelCase"
  ∧ ∃ r,
      @autoDecl unicode.asciiTables defaultConfig {| Name := "CamelCase" |}
        ["// CamelCase: camel case"; "// more"]
      = Some (("// CamelCase " +:+ r) :: ["// more"])
      ∧ StripsTo (specPrefixes "CamelCase") "// CamelCase: camel case" r.
Proof.
  split; [reflexivity|]. split; [discriminate|].
  split; [discriminate|]. split; [discriminate|].
  apply (@C4_missing_name_prefix unicode.asciiTables defaultConfig
           {| Name := "CamelCase" |});
    [reflexivity | discriminate | discriminate | discriminate].
Defined.

Lemma C6_witness :
  utf8.ValidString "PDFLoaderé€😀2x" = true
  ∧ ∃ frags,
      @Split unicode.asciiTables "PDFLoaderé€😀2x"
      = Some (map utf8.runesToString frags)
      ∧ Forall (λ f, f ≠ []) frags
      ∧ concat frags = utf8.rangeRunes "PDFLoaderé€😀2x"
      ∧ gostrings.Join (map utf8.runesToString frags) ""
        = "PDFLoaderé€😀2x".
Proof.
  split; [reflexivity|].
  apply (@C6_split_covers_name unicode.asciiTables). reflexivity.
Defined.

Lemma C7_witness :
  @IsExported unicode.asciiTables {| Name := "CamelCase" |} = true
  ∧ ["// camel case"; "// second"; "// third"] ≠ []
  ∧ ∃ out,
      @autoDecl unicode.asciiTables defaultConfig {| Name := "CamelCase" |}
        ["// camel case"; "// second"; "// third"] = Some out
      ∧ length out = length ["// camel case"; "// second"; "// third"]
      ∧ ∀ i, 0 < i →
             out !! i = ["// camel case"; "// second"; "// third"] !! i.
Proof.
  split; [reflexivity|]. split; [discriminate|].
  apply (@C7_only_head_changes unicode.asciiTables);
    [reflexivity | discriminate].
Defined.

Lemma C9_witness :
  @IsExported unicode.asciiTables {| Name := "camelCase" |} = false
  ∧ @autoDecl unicode.asciiTables describingConfig {| Name := "camelCase" |}
      ["//camelCase: camel case"]
    = Some ["//camelCase: camel case"].
Proof.
  split; [reflexivity|].
  apply (@C9_not_exported_unchanged unicode.asciiTables). reflexivity.
Defined.

Lemma C10_witness :
  @IsExported unicode.asciiTables {| Name := "CamelCase" |} = true
  ∧ In "// CamelCase:" (specPrefixes "CamelCase")
  ∧ @autoDecl unicode.asciiTables defaultConfig {| Name := "CamelCase" |}
      ["// CamelCase:"; "// more"]
    = Some ["// CamelCase "; "// more"].
Proof.
  split; [reflexivity|]. split; [cbn; tauto|].
  apply (@C10_bare_prefix_head unicode.asciiTables defaultConfig
           {| Name := "CamelCase" |}); [reflexivity | cbn; tauto].
Defined.

(** * More of the program *)

(** ** The rewriter on the forms of the README *)

Section rewriter_more.
Context `{unicode.Tables}.

Lemma HasPrefix_none (s p : string) :
  (∀ u, s ≠ p +:+ u) → gostrings.HasPrefix s p = false.
Proof.
  intros Hno. destruct (gostrings.HasPrefix s p) eqn:Hp; [|done].
  apply HasPrefix_split in Hp. by destruct (Hno _ Hp).
Qed.

Lemma spaced_not_tight c (s p : string) :
  c ≠ " "%char →
  gostrings.HasPrefix ("// " +:+ s) ("//" +:+ String c p) = false.
Proof.
  intros Hc. apply Ascii.eqb_neq in Hc.
  rewrite !sapp_cons, !sapp_nil_l. cbn [gostrings.HasPrefix].
  by rewrite !Ascii.eqb_refl, Hc.
Qed.

Lemma tight_not_spaced c (s p : string) :
  c ≠ " "%char →
  gostrings.HasPrefix ("//" +:+ String c s) ("// " +:+ p) = false.
Proof.
  intros Hc. apply Ascii.eqb_neq in Hc. rewrite Ascii.eqb_sym in Hc.
  rewrite !sapp_cons, !sapp_nil_l. cbn [gostrings.HasPrefix].
  by rewrite !Ascii.eqb_refl, Hc.
Qed.

Lemma spaced_neq_tight c (s p : string) :
  c ≠ " "%char → String.eqb ("// " +:+ s) ("//" +:+ String c p) = false.
Proof.
  intros Hc. apply Ascii.eqb_neq in Hc. rewrite Ascii.eqb_sym in Hc.
  rewrite !sapp_cons, !sapp_nil_l. cbn [String.eqb].
  by rewrite !Ascii.eqb_refl, Hc.
Qed.

Lemma tight_neq_spaced c (s p : string) :
  c ≠ " "%char → String.eqb ("//" +:+ String c s) ("// " +:+ p) = false.
Proof.
  intros Hc. apply Ascii.eqb_neq in Hc.
  rewrite !sapp_cons, !sapp_nil_l. cbn [String.eqb].
  by rewrite !Ascii.eqb_refl, Hc.
Qed.
End rewriter_more.

Section rewriter_extras.
Context `{unicode.Tables}.

(** X1.  What [autoDecl] returns for an exported name always begins with
    a line of the form [// name text]; the lines after it are the lines
    that followed the old head line (none for an empty block). *)
Theorem X1_head_starts_with_name cfg ident lines :
  IsExported ident = true →
  ∃ text, autoDecl cfg ident lines
          = Some (("// " +:+ Name ident +:+ " " +:+ text) :: tail lines).
Proof.
  intros Hexp. rewrite autoDecl_exported by done.
  destruct (docLine_total cfg (Name ident)) as [d ->]. option_step.
  destruct lines as [|first rest]; [by exists d|].
  unfold newHead. destruct (_ || _); [by exists d|].
  destruct (gostrings.HasPrefix first _) eqn:Hp; cbn [negb tail].
  - apply HasPrefix_split in Hp. rewrite !sapp_assoc in Hp.
    eexists. by rewrite <- Hp.
  - by eexists.
Qed.

(** X2.  The configuration matters only for a missing comment and for a
    head line that is the bare name: on any other block two runs with
    different configurations return the same block. *)
Theorem X2_configuration_only_for_missing_text cfg cfg' ident first rest :
  first ≠ "// " +:+ Name ident → first ≠ "//" +:+ Name ident →
  autoDecl cfg ident (first :: rest) = autoDecl cfg' ident (first :: rest).
Proof.
  intros Hn1 Hn2. destruct (IsExported ident) eqn:Hexp.
  - rewrite !autoDecl_exported by done.
    destruct (docLine_total cfg (Name ident)) as [d ->].
    destruct (docLine_total cfg' (Name ident)) as [d' ->]. option_step.
    unfold newHead. apply String.eqb_neq in Hn1, Hn2.
    by rewrite Hn1, Hn2.
  - unfold autoDecl. by rewrite Hexp.
Qed.

(** X3.  The case "missing name" of the README in general: a head line
    [// t] whose text [t] is not the name and does not begin with the
    name followed by a space or by a colon becomes [// name t], the whole
    text being kept as the description. *)
Theorem X3_missing_name_keeps_text cfg ident t rest :
  IsExported ident = true →
  t ≠ Name ident →
  (∀ u, t ≠ Name ident +:+ " " +:+ u) →
  (∀ u, t ≠ Name ident +:+ ":" +:+ u) →
  autoDecl cfg ident (("// " +:+ t) :: rest)
  = Some (("// " +:+ Name ident +:+ " " +:+ t) :: rest).
Proof.
  intros Hexp Hname Hsp Hco. rewrite autoDecl_exported by done.
  destruct (docLine_total cfg (Name ident)) as [d ->]. option_step.
  destruct (exported_first ident Hexp) as (c & n & Hn & Hc).
  do 2 f_equal. unfold newHead, trimPrefix.
  rewrite trimPrefixCases_spec. unfold specPrefixes.
  assert (gostrings.HasPrefix t (Name ident +:+ " ") = false) as Hp1.
  { apply HasPrefix_none. intros u. rewrite sapp_assoc. apply Hsp. }
  assert (gostrings.HasPrefix t (Name ident +:+ ":") = false) as Hp2.
  { apply HasPrefix_none. intros u. rewrite sapp_assoc. apply Hco. }
  assert (gostrings.HasPrefix t (Name ident +:+ ": ") = false) as Hp3.
  { apply HasPrefix_none. intros u Hu. apply (Hco (" " +:+ u)).
    by rewrite Hu, !sapp_assoc. }
  apply String.eqb_neq in Hname.
  rewrite (eqb_cancel "// "), Hname.
  rewrite (HasPrefix_cancel "// " t (Name ident +:+ " ")), Hp1.
  cbn [trimFirst].
  rewrite (HasPrefix_cancel "// " t (Name ident +:+ ": ")), Hp3.
  rewrite (HasPrefix_cancel "// " t (Name ident +:+ ":")), Hp2.
  rewrite Hn, !(sapp_cons c n).
  rewrite spaced_neq_tight, !spaced_not_tight by done. cbn [orb negb].
  by rewrite (HasPrefix_app "// " t), (TrimPrefix_app "// " t).
Qed.
End rewriter_extras.

Section separators.
Context `{unicode.Tables}.

Lemma HasPrefix_nil (s : string) : gostrings.HasPrefix s "" = true.
Proof. reflexivity. Qed.

Lemma eqb_cons a s b t :
  String.eqb (String a s) (String b t) = Ascii.eqb a b && String.eqb s t.
Proof. reflexivity. Qed.

Lemma eqb_cons_nil a s : String.eqb (String a s) "" = false.
Proof. reflexivity. Qed.

Lemma eqb_nil_cons a s : String.eqb "" (String a s) = false.
Proof. reflexivity. Qed.

Lemma HasPrefix_nil_cons a p : gostrings.HasPrefix "" (String a p) = false.
Proof. reflexivity. Qed.

Lemma trimFirst_is ps doc r : StripsTo ps doc r → trimFirst ps doc = r.
Proof. intros Hr. eapply StripsTo_fun; [apply trimFirst_StripsTo|done]. Qed.

Ltac literal_chars Hc Hc' :=
  rewrite ?Hc, ?Hc', ?Ascii.eqb_refl;
  repeat match goal with
         | |- context [Ascii.eqb ?a ?b] =>
           let v := eval vm_compute in (Ascii.eqb a b) in
           change (Ascii.eqb a b) with v
         end.

Ltac by_bytes Hc Hc' Hd :=
  repeat (progress
    (rewrite ?sapp_cons, ?sapp_nil_l, ?HasPrefix_cons, ?HasPrefix_nil,
       ?HasPrefix_nil_cons, ?eqb_cons, ?eqb_cons_nil, ?eqb_nil_cons;
     literal_chars Hc Hc';
     rewrite ?HasPrefix_cancel, ?eqb_app_self, ?eqb_cancel, ?Hd;
     cbn [andb orb negb])).

Ltac strip_steps Hc Hc' Hd :=
  repeat first
    [ match goal with
      | |- StripsTo (?p :: _) ?h ?d =>
        replace h with (p +:+ d) by (by rewrite !sapp_assoc);
        apply strips_here
      end
    | apply strips_later; [apply HasPrefix_false; by_bytes Hc Hc' Hd; done|] ].

(** X4.  The separators the README lists are normalised: a head line
    made of the name, glued to the slashes or not, followed by a space,
    by a colon and a space, or by a colon, and then a text [d], becomes
    [// name d].  After a bare colon the text is taken not to begin with
    a space (otherwise the colon and the space are stripped together). *)
Theorem X4_separators_normalised cfg ident d head rest :
  IsExported ident = true →
  In head [ "//" +:+ Name ident +:+ " " +:+ d;
            "// " +:+ Name ident +:+ ": " +:+ d;
            "//" +:+ Name ident +:+ ": " +:+ d ]
  ∨ ((∀ u, d ≠ " " +:+ u)
     ∧ In head [ "// " +:+ Name ident +:+ ":" +:+ d;
                 "//" +:+ Name ident +:+ ":" +:+ d ]) →
  autoDecl cfg ident (head :: rest)
  = Some (("// " +:+ Name ident +:+ " " +:+ d) :: rest).
Proof.
  intros Hexp Hhead. rewrite autoDecl_exported by done.
  destruct (docLine_total cfg (Name ident)) as [doc ->]. option_step.
  destruct (exported_first ident Hexp) as (c & n & Hn & Hne).
  assert (Ascii.eqb c " " = false) as Hc by (by apply Ascii.eqb_neq).
  assert (Ascii.eqb " " c = false) as Hc' by (by rewrite Ascii.eqb_sym).
  do 2 f_equal. unfold newHead, trimPrefix.
  rewrite trimPrefixCases_spec. unfold specPrefixes. rewrite Hn in *.
  cbn [In] in Hhead.
  destruct Hhead as [[<-|[<-|[<-|[]]]]|[Hsp [<-|[<-|[]]]]].
  4,5: apply HasPrefix_none in Hsp.
  1-3: pose proof I as Hsp.
  all: match goal with
       | |- (if ?a || ?b then _ else _) = _ =>
         replace a with false by (symmetry; by_bytes Hc Hc' Hsp; done);
         replace b with false by (symmetry; by_bytes Hc Hc' Hsp; done)
       end; cbn [orb].
  all: match goal with
       | |- (if negb ?a then _ else _) = _ =>
         replace a with false by (symmetry; by_bytes Hc Hc' Hsp; done)
       end; cbn [negb].
  all: do 3 f_equal; apply trimFirst_is; strip_steps Hc Hc' Hsp.
Qed.
End separators.

(** ** The function given to [dst.Inspect] *)

Section inspect_facts.
Context `{unicode.Tables}.

Lemma autoDecl_total cfg ident decs :
  ∃ out, autoDecl cfg ident decs = Some out.
Proof.
  destruct (IsExported ident) eqn:Hexp.
  - rewrite autoDecl_exported by done.
    destruct (docLine_total cfg (Name ident)) as [d ->]. by eexists.
  - unfold autoDecl. rewrite Hexp. by eexists.
Qed.

Lemma autoDecl_twice cfg ident decs out :
  autoDecl cfg ident decs = Some out → autoDecl cfg ident out = Some out.
Proof.
  destruct (IsExported ident) eqn:Hexp.
  - rewrite !autoDecl_exported by done.
    destruct (docLine_total cfg (Name ident)) as [d ->]. option_step.
    intros [= <-]. destruct decs as [|first rest]; do 2 f_equal.
    + apply newHead_wellFormed.
    + apply newHead_idem.
  - unfold autoDecl. rewrite Hexp. cbn [negb]. by intros [= <-].
Qed.

Lemma instrumentSpec_total cfg spec :
  specNamed spec → ∃ spec', instrumentSpec cfg spec = Some spec'.
Proof.
  destruct spec as [name start|names start|start]; cbn.
  - intros _. destruct (autoDecl_total cfg name start) as [out ->].
    by eexists.
  - intros Hn. destruct names as [|name names]; [done|]. option_step.
    destruct (autoDecl_total cfg name start) as [out ->]. by eexists.
  - by eexists.
Qed.

Lemma instrumentSpecs_total cfg specs :
  Forall specNamed specs →
  ∃ specs', instrumentSpecs cfg specs = Some specs'.
Proof.
  induction 1 as [|spec specs Hs _ IH]; [by eexists|].
  cbn [instrumentSpecs].
  destruct (instrumentSpec_total cfg spec Hs) as [spec' ->].
  destruct IH as [specs' ->]. by eexists.
Qed.

Lemma instrumentSpec_twice cfg spec spec' :
  instrumentSpec cfg spec = Some spec' →
  instrumentSpec cfg spec' = Some spec'.
Proof.
  destruct spec as [name start|names start|start]; cbn.
  - destruct (autoDecl cfg name start) as [out|] eqn:Ha; [|done].
    intros [= <-]. cbn. by rewrite (autoDecl_twice _ _ _ _ Ha).
  - destruct names as [|name names]; [done|]. option_step.
    destruct (autoDecl cfg name start) as [out|] eqn:Ha; [|done].
    intros [= <-]. cbn. option_step. by rewrite (autoDecl_twice _ _ _ _ Ha).
  - by intros [= <-].
Qed.

Lemma instrumentSpecs_twice cfg specs : ∀ specs',
  instrumentSpecs cfg specs = Some specs' →
  instrumentSpecs cfg specs' = Some specs'.
Proof.
  induction specs as [|spec specs IH]; intros specs'; cbn [instrumentSpecs].
  - by intros [= <-].
  - destruct (instrumentSpec cfg spec) as [s1|] eqn:H1; [|done].
    destruct (instrumentSpecs cfg specs) as [r1|] eqn:H2; [|done].
    option_step. intros [= <-]. cbn [instrumentSpecs].
    by rewrite (instrumentSpec_twice _ _ _ H1), (IH _ eq_refl).
Qed.

Lemma instrumentSpecs_length cfg specs : ∀ specs',
  instrumentSpecs cfg specs = Some specs' → length specs' = length specs.
Proof.
  induction specs as [|spec specs IH]; intros specs'; cbn [instrumentSpecs].
  - by intros [= <-].
  - destruct (instrumentSpec cfg spec) as [s1|]; [|done].
    destruct (instrumentSpecs cfg specs) as [r1|]; [|done].
    option_step. intros [= <-]. cbn. by rewrite (IH _ eq_refl).
Qed.

Lemma instrumentSpec_bare cfg spec spec' :
  instrumentSpec cfg spec = Some spec' → bareSpec spec' = bareSpec spec.
Proof.
  destruct spec as [name start|names start|start]; cbn.
  - destruct (autoDecl cfg name start); [|done]. by intros [= <-].
  - destruct (names !! 0); [|done]. option_step.
    destruct (autoDecl cfg _ start); [|done]. by intros [= <-].
  - by intros [= <-].
Qed.

Lemma instrumentSpecs_bare cfg specs : ∀ specs',
  instrumentSpecs cfg specs = Some specs' →
  map bareSpec specs' = map bareSpec specs.
Proof.
  induction specs as [|spec specs IH]; intros specs'; cbn [instrumentSpecs].
  - by intros [= <-].
  - destruct (instrumentSpec cfg spec) as [s1|] eqn:H1; [|done].
    destruct (instrumentSpecs cfg specs) as [r1|]; [|done].
    option_step. intros [= <-]. cbn.
    by rewrite (instrumentSpec_bare _ _ _ H1), (IH _ eq_refl).
Qed.
End inspect_facts.

Section inspect_extras.
Context `{unicode.Tables}.

(** X5.  On a node of a parsed file (every value specification names an
    identifier) the function given to [dst.Inspect] does not panic,
    always answers [true], so that the traversal goes on below the node,
    and leaves the node as it was but for its decorations: no
    declaration is renamed, added, dropped or moved. *)
Theorem X5_inspect_keeps_the_tree cfg n :
  nodeNamed n →
  ∃ n', inspectNode cfg n = Some (n', true) ∧ bareNode n' = bareNode n.
Proof.
  destruct n as [name start|specs start|]; cbn [nodeNamed inspectNode].
  - intros _. destruct (autoDecl_total cfg name start) as [out ->].
    by eexists.
  - intros Hs. destruct (length specs =? 1)%nat eqn:Hlen.
    + destruct specs as [|s [|]]; try done. option_step.
      apply Forall_cons in Hs as [Hs _].
      destruct s as [name own|names own|own].
      * destruct (autoDecl_total cfg name start) as [out ->]. by eexists.
      * destruct names as [|name names]; [done|]. option_step.
        destruct (autoDecl_total cfg name start) as [out ->]. by eexists.
      * by eexists.
    + destruct (instrumentSpecs_total cfg specs Hs) as [specs' Hs'].
      rewrite Hs'. eexists. split; [done|]. cbn.
      by rewrite (instrumentSpecs_bare _ _ _ Hs').
  - intros _. by eexists.
Qed.


(** X7.  Of the names of a value specification only the first counts:
    when it is not exported, nothing is rewritten, whatever the other
    names are, both for a declaration of its own and for a member of a
    group. *)
Theorem X7_first_name_decides cfg name others own start :
  IsExported name = false →
  inspectNode cfg (GenDecl [ValueSpec (name :: others) own] start)
  = Some (GenDecl [ValueSpec (name :: others) own] start, true)
  ∧ instrumentSpec cfg (ValueSpec (name :: others) own)
    = Some (ValueSpec (name :: others) own).
Proof.
  intros Hexp.
  assert (∀ decs, autoDecl cfg name decs = Some decs) as Hsame.
  { intros decs. unfold autoDecl. by rewrite Hexp. }
  cbn. by rewrite !Hsame.
Qed.

(** X8.  Visiting a node a second time changes nothing: what the
    function leaves is a node that it returns as it is. *)
Theorem X8_inspect_idempotent cfg n n' b :
  inspectNode cfg n = Some (n', b) → inspectNode cfg n' = Some (n', b).
Proof.
  destruct n as [name start|specs start|]; cbn [inspectNode].
  - destruct (autoDecl cfg name start) as [out|] eqn:Ha; [|done].
    intros [= <- <-]. cbn. by rewrite (autoDecl_twice _ _ _ _ Ha).
  - destruct (length specs =? 1)%nat eqn:Hlen.
    + destruct (specs !! 0) as [s|] eqn:Hs; [|done]. option_step.
      destruct s as [name own|names own|own].
      * destruct (autoDecl cfg name start) as [out|] eqn:Ha; [|done].
        intros [= <- <-]. cbn [inspectNode]. rewrite Hlen, Hs. option_step.
        by rewrite (autoDecl_twice _ _ _ _ Ha).
      * destruct (names !! 0) as [name|] eqn:Hn; [|done]. option_step.
        destruct (autoDecl cfg name start) as [out|] eqn:Ha; [|done].
        intros [= <- <-]. cbn [inspectNode]. rewrite Hlen, Hs. option_step.
        rewrite Hn. option_step. by rewrite (autoDecl_twice _ _ _ _ Ha).
      * intros [= <- <-]. cbn [inspectNode]. by rewrite Hlen, Hs.
    + destruct (instrumentSpecs cfg specs) as [specs'|] eqn:Hs; [|done].
      intros [= <- <-]. cbn [inspectNode].
      rewrite (instrumentSpecs_length _ _ _ Hs), Hlen.
      by rewrite (instrumentSpecs_twice _ _ _ Hs).
  - by intros [= <- <-].
Qed.
End inspect_extras.

(** ** The words of [Split] *)

Section word_facts.
Context `{unicode.Tables}.

Lemma runOf_oneClass f : runOf f → oneClass f.
Proof. intros [_ Hall]. by exists (fragClass f). Qed.

Lemma carried_shape carry f :
  runOf f → carryOK carry f →
  oneClass (carry ++ f) ∨ capitalised (carry ++ f).
Proof.
  intros Hf [->|(x & -> & Hx & Hcl)].
  - left. by apply runOf_oneClass.
  - right. exists x, f. destruct Hf as [Hne Hall]. repeat split; try done.
    rewrite Hcl in Hall. eapply Forall_impl; [done|].
    intros r Hr. by apply classOf_lower.
Qed.

Lemma disambiguate_shapes rest : ∀ carry f,
  Grouped (f :: rest) → carryOK carry f →
  Forall (λ g, oneClass g ∨ capitalised g) (disambiguate carry (f :: rest)).
Proof.
  induction rest as [|f' rest IH]; intros carry f HG Hc.
  - inversion HG; subst. cbn. constructor; [|done]. by apply carried_shape.
  - inversion HG as [| |? ? ? Hf Hd HG']; subst.
    rewrite disambiguate_pair. destruct (movePair f f') eqn:Hm.
    + constructor; [|apply IH; [done|by apply movePair_carry]].
      destruct Hc as [->|(x & -> & Hx & Hcl)].
      * left. destruct Hf as [_ Hall]. exists (fragClass f).
        cbn [app]. unfold butLast. by apply Forall_take.
      * exfalso. unfold movePair in Hm.
        apply andb_true_iff in Hm as [_ Hs].
        apply startsLower_class in Hs. congruence.
    + constructor; [by apply carried_shape|]. apply IH; [done|by left].
Qed.

Lemma fragments_shapes rs :
  Forall wordShape
    (filter (λ f, f ≠ []) (disambiguateSpec (classGroups rs))).
Proof.
  apply Forall_forall. intros f Hf.
  apply list_elem_of_filter in Hf as [Hne Hin]. split; [done|].
  rewrite <- disambiguate_spec in Hin.
  pose proof (classGroups_Grouped rs) as HG.
  destruct (classGroups rs) as [|g gs]; [by apply elem_of_nil in Hin|].
  pose proof (disambiguate_shapes gs [] g HG (or_introl eq_refl)) as Hall.
  rewrite Forall_forall in Hall. by apply Hall.
Qed.
End word_facts.

Section word_extras.
Context `{unicode.Tables}.

(** X9.  Every fragment that [Split] cuts out of valid text is a word of
    one of two shapes: code points of one class (lower-case letters,
    upper-case letters, digits, or others), or one upper-case letter
    followed by lower-case letters. *)
Theorem X9_fragments_are_words src :
  utf8.ValidString src = true →
  ∃ frags, Split src = Some (map utf8.runesToString frags)
           ∧ Forall wordShape frags.
Proof.
  intros Hv. eexists. split; [by apply Split_valid|].
  apply fragments_shapes.
Qed.

(** X10.  [Split] returns no fragment at all for the empty string, and
    for the empty string only. *)
Theorem X10_no_fragment_iff_empty src : Split src = Some [] ↔ src = "".
Proof.
  split; [|by intros ->].
  destruct (utf8.ValidString src) eqn:Hv.
  - rewrite Split_valid by done. intros [= Hs].
    rewrite <- (rangeRunes_roundtrip src Hv), <- segmentSpec_join.
    by rewrite Hs.
  - by rewrite Split_invalid.
Qed.
End word_extras.

(** ** UTF-8: writing runes and reading them back *)

Section decode_facts.
Local Open Scope Z_scope.

Lemma byteZ_toByte z : 0 <= z < 256 → byteZ (toByte z) = z.
Proof.
  intros Hz. unfold byteZ, toByte. rewrite land_FF, Z.mod_small by done.
  rewrite N_ascii_embedding by lia. lia.
Qed.

Lemma first_ranges b :
  0xC2 <= b <= 0xF4 →
  (utf8.as_ <=? utf8.first b) = false
  ∧ Z.land (utf8.first b) 7
    = (if b <? 0xE0 then 2 else if b <? 0xF0 then 3 else 4)
  ∧ utf8.acceptRanges (Z.shiftr (utf8.first b) 4)
    = (if b =? 0xE0 then 0xA0 else if b =? 0xF0 then 0x90 else 0x80,
       if b =? 0xED then 0x9F else if b =? 0xF4 then 0x8F else 0xBF).
Proof.
  intros Hb. unfold utf8.first.
  repeat match goal with
         | |- context [if (?x <? ?y) then _ else _] =>
           destruct (Z.ltb_spec x y)
         | |- context [if (?x =? ?y) then _ else _] =>
           destruct (Z.eqb_spec x y)
         end; try lia; repeat split; reflexivity.
Qed.

Lemma length_ge_1 c t : (Z.of_nat (String.length (String c t)) <? 1) = false.
Proof. apply Z.ltb_ge. cbn [String.length]. lia. Qed.

Lemma in_range_false b lo hi :
  lo <= b <= hi → (b <? lo) || (hi <? b) = false.
Proof.
  intros Hb. apply orb_false_iff. split; apply Z.ltb_ge; lia.
Qed.

Ltac decide_ifs :=
  repeat match goal with
         | |- context [if (?x <? ?y) then _ else _] =>
           destruct (Z.ltb_spec x y); try lia
         | |- context [if (?x =? ?y) then _ else _] =>
           destruct (Z.eqb_spec x y); try lia
         | |- context [if (?x <=? ?y) then _ else _] =>
           destruct (Z.leb_spec x y); try lia
         end.

Ltac fix_size :=
  repeat match goal with
         | |- context [if (byteZ ?c <? ?k) then _ else _] =>
           first [ replace (byteZ c <? k) with true
                     by (symmetry; apply Z.ltb_lt; lia)
                 | replace (byteZ c <? k) with false
                     by (symmetry; apply Z.ltb_ge; lia) ]
         end.

Lemma Decode_two c0 c1 t :
  0xC2 <= byteZ c0 <= 0xDF → 0x80 <= byteZ c1 <= 0xBF →
  utf8.DecodeRuneInString (String c0 (String c1 t))
  = (Z.lor (Z.shiftl (Z.land (byteZ c0) utf8.mask2) 6)
           (Z.land (byteZ c1) utf8.maskx), 2%nat).
Proof.
  intros H0 H1. unfold utf8.DecodeRuneInString.
  rewrite length_ge_1. cbn [byteAt String.get].
  destruct (first_ranges (byteZ c0)) as (-> & -> & ->); [lia|].
  fix_size. cbn [fst snd String.length].
  rewrite in_range_false by (decide_ifs; lia).
  decide_ifs. done.
Qed.

Lemma Decode_three c0 c1 c2 t :
  0xE0 <= byteZ c0 <= 0xEF → 0x80 <= byteZ c1 <= 0xBF →
  0x80 <= byteZ c2 <= 0xBF →
  (byteZ c0 = 0xE0 → 0xA0 <= byteZ c1) →
  (byteZ c0 = 0xED → byteZ c1 <= 0x9F) →
  utf8.DecodeRuneInString (String c0 (String c1 (String c2 t)))
  = (Z.lor (Z.lor (Z.shiftl (Z.land (byteZ c0) utf8.mask3) 12)
                  (Z.shiftl (Z.land (byteZ c1) utf8.maskx) 6))
           (Z.land (byteZ c2) utf8.maskx), 3%nat).
Proof.
  intros H0 H1 H2 Hlo Hhi. unfold utf8.DecodeRuneInString.
  rewrite length_ge_1. cbn [byteAt String.get].
  destruct (first_ranges (byteZ c0)) as (-> & -> & ->); [lia|].
  fix_size. cbn [fst snd String.length].
  rewrite in_range_false by (decide_ifs; lia).
  rewrite (in_range_false (byteZ c2)) by (unfold utf8.locb, utf8.hicb; lia).
  decide_ifs. done.
Qed.

Lemma Decode_four c0 c1 c2 c3 t :
  0xF0 <= byteZ c0 <= 0xF4 → 0x80 <= byteZ c1 <= 0xBF →
  0x80 <= byteZ c2 <= 0xBF → 0x80 <= byteZ c3 <= 0xBF →
  (byteZ c0 = 0xF0 → 0x90 <= byteZ c1) →
  (byteZ c0 = 0xF4 → byteZ c1 <= 0x8F) →
  utf8.DecodeRuneInString
    (String c0 (String c1 (String c2 (String c3 t))))
  = (Z.lor (Z.lor (Z.lor (Z.shiftl (Z.land (byteZ c0) utf8.mask4) 18)
                         (Z.shiftl (Z.land (byteZ c1) utf8.maskx) 12))
                  (Z.shiftl (Z.land (byteZ c2) utf8.maskx) 6))
           (Z.land (byteZ c3) utf8.maskx), 4%nat).
Proof.
  intros H0 H1 H2 H3 Hlo Hhi. unfold utf8.DecodeRuneInString.
  rewrite length_ge_1. cbn [byteAt String.get].
  destruct (first_ranges (byteZ c0)) as (-> & -> & ->); [lia|].
  fix_size. cbn [fst snd String.length].
  rewrite in_range_false by (decide_ifs; lia).
  rewrite (in_range_false (byteZ c2)) by (unfold utf8.locb, utf8.hicb; lia).
  rewrite (in_range_false (byteZ c3)) by (unfold utf8.locb, utf8.hicb; lia).
  decide_ifs. done.
Qed.
End decode_facts.

Section encode_then_decode.
Local Open Scope Z_scope.

Lemma lor_tag (t y hi n : Z) :
  t = hi * 2 ^ n → 0 <= n → 0 <= y < 2 ^ n → Z.lor t y = t + y.
Proof. intros -> Hn Hy. by apply lor_disjoint. Qed.

Ltac to_arith :=
  rewrite ?land_mask2, ?land_mask3, ?land_mask4, ?land_maskx,
    ?Z.shiftr_div_pow2, ?Z.shiftl_mul_pow2 by lia;
  change (2 ^ 6) with 64 in *; change (2 ^ 12) with 4096 in *;
  change (2 ^ 18) with 262144 in *.

Ltac arith := Z.div_mod_to_equations; lia.

Lemma Decode_Encode_scalar r t :
  scalar r →
  utf8.DecodeRuneInString (utf8.EncodeRune r +:+ t)
  = (r, String.length (utf8.EncodeRune r))
  ∧ utf8.rangeRunes (utf8.EncodeRune r +:+ t) = r :: utf8.rangeRunes t.
Proof.
  intros [Hr Hs].
  unfold utf8.EncodeRune, utf8.encode3, utf8.rune1Max, utf8.rune2Max,
    utf8.rune3Max, utf8.MaxRune, utf8.surrogateMin, utf8.surrogateMax,
    utf8.t2, utf8.t3, utf8.t4, utf8.tx.
  destruct (Z.leb_spec 0 r); [|lia]. cbn [andb].
  destruct (Z.leb_spec r 0x7F).
  { (* one byte *)
    rewrite !sapp_cons, sapp_nil_l. cbn [utf8.rangeRunes].
    rewrite Decode_one by (rewrite byteZ_toByte; lia).
    rewrite byteZ_toByte by lia. done. }
  destruct (Z.leb_spec r 0x7FF).
  { (* two bytes *)
    rewrite !sapp_cons, sapp_nil_l. cbn [utf8.rangeRunes].
    to_arith.
    rewrite (lor_tag 0xC0 _ 3 6), (lor_tag 0x80 _ 2 6)
      by (try reflexivity; change (2 ^ 6) with 64; arith).
    rewrite Decode_two by (rewrite byteZ_toByte by arith; arith).
    rewrite !byteZ_toByte by arith. to_arith.
    rewrite (lor_add _ _ 6) by (change (2 ^ 6) with 64; arith).
    replace (_ + _) with r by arith. done. }
  destruct (Z.ltb_spec r 0); [lia|].
  destruct (Z.ltb_spec 0x10FFFF r); [lia|].
  replace ((0xD800 <=? r) && (r <=? 0xDFFF)) with false
    by (symmetry; apply andb_false_iff;
        destruct (Z.leb_spec 0xD800 r), (Z.leb_spec r 0xDFFF);
        auto; lia).
  cbn [orb].
  destruct (Z.leb_spec r 0xFFFF).
  { (* three bytes *)
    rewrite !sapp_cons, sapp_nil_l. cbn [utf8.rangeRunes].
    to_arith.
    rewrite (lor_tag 0xE0 _ 7 5), !(lor_tag 0x80 _ 2 6)
      by (try reflexivity; change (2 ^ 6) with 64; change (2 ^ 5) with 32;
          arith).
    rewrite Decode_three by (rewrite ?byteZ_toByte by arith; arith).
    rewrite !byteZ_toByte by arith. to_arith.
    rewrite (lor_add (_ * 4096) (_ * 64) 12)
      by (change (2 ^ 12) with 4096; arith).
    rewrite (lor_add _ _ 6) by (change (2 ^ 6) with 64; arith).
    replace (_ + _ + _) with r by arith. done. }
  (* four bytes *)
  rewrite !sapp_cons, sapp_nil_l. cbn [utf8.rangeRunes].
  to_arith.
  rewrite (lor_tag 0xF0 _ 15 4), !(lor_tag 0x80 _ 2 6)
    by (try reflexivity; change (2 ^ 6) with 64; change (2 ^ 4) with 16;
        arith).
  rewrite Decode_four by (rewrite ?byteZ_toByte by arith; arith).
  rewrite !byteZ_toByte by arith. to_arith.
  rewrite (lor_add (_ * 262144) (_ * 4096) 18)
    by (change (2 ^ 18) with 262144; arith).
  rewrite (lor_add _ (_ * 64) 12) by (change (2 ^ 12) with 4096; arith).
  rewrite (lor_add _ _ 6) by (change (2 ^ 6) with 64; arith).
  replace (_ + _ + _ + _) with r by arith. done.
Qed.
End encode_then_decode.

Section valid_after_encode.
Local Open Scope Z_scope.

Lemma first_not_xx b :
  0xC2 <= b <= 0xF4 → (utf8.first b =? utf8.xx) = false.
Proof.
  intros Hb. unfold utf8.first.
  repeat match goal with
         | |- context [if (?x <? ?y) then _ else _] =>
           destruct (Z.ltb_spec x y)
         | |- context [if (?x =? ?y) then _ else _] =>
           destruct (Z.eqb_spec x y)
         end; try lia; reflexivity.
Qed.

Ltac fix_size :=
  repeat match goal with
         | |- context [if (byteZ ?c <? ?k) then _ else _] =>
           first [ replace (byteZ c <? k) with true
                     by (symmetry; apply Z.ltb_lt; lia)
                 | replace (byteZ c <? k) with false
                     by (symmetry; apply Z.ltb_ge; lia) ]
         end.

Ltac decide_ifs :=
  repeat match goal with
         | |- context [if (?x <? ?y) then _ else _] =>
           destruct (Z.ltb_spec x y); try lia
         | |- context [if (?x =? ?y) then _ else _] =>
           destruct (Z.eqb_spec x y); try lia
         | |- context [if (?x <=? ?y) then _ else _] =>
           destruct (Z.leb_spec x y); try lia
         end.

Lemma Valid_one c t :
  byteZ c < 0x80 → utf8.ValidString (String c t) = utf8.ValidString t.
Proof.
  intros Hc. cbn [utf8.ValidString]. unfold utf8.RuneSelf.
  by destruct (Z.ltb_spec (byteZ c) 0x80); [|lia].
Qed.

Lemma Valid_many c0 c1 t :
  0xC2 <= byteZ c0 <= 0xF4 →
  utf8.ValidString (String c0 (String c1 t)) =
  let size := if byteZ c0 <? 0xE0 then 2 else if byteZ c0 <? 0xF0 then 3
              else 4 in
  let lo := if byteZ c0 =? 0xE0 then 0xA0 else if byteZ c0 =? 0xF0 then 0x90
            else 0x80 in
  let hi := if byteZ c0 =? 0xED then 0x9F else if byteZ c0 =? 0xF4 then 0x8F
            else 0xBF in
  if Z.of_nat (String.length (String c0 (String c1 t))) <? size then false
  else if (byteZ c1 <? lo) || (hi <? byteZ c1) then false
  else if size =? 2 then utf8.ValidString t
  else match t with
       | EmptyString => false
       | String c2 r2 =>
         if (byteZ c2 <? utf8.locb) || (utf8.hicb <? byteZ c2) then false
         else if size =? 3 then utf8.ValidString r2
         else match r2 with
              | EmptyString => false
              | String c3 r3 =>
                if (byteZ c3 <? utf8.locb) || (utf8.hicb <? byteZ c3)
                then false else utf8.ValidString r3
              end
       end.
Proof.
  intros Hb. cbn [utf8.ValidString]. unfold utf8.RuneSelf.
  destruct (Z.ltb_spec (byteZ c0) 0x80); [lia|].
  rewrite first_not_xx by done.
  by destruct (first_ranges (byteZ c0)) as (_ & -> & ->); [lia|].
Qed.

Ltac no_if x :=
  lazymatch x with
  | context [if _ then _ else _] => fail
  | _ => idtac
  end.

Ltac split_tests :=
  repeat (match goal with
          | |- context [(?x <? ?y)] =>
            no_if x; no_if y; destruct (Z.ltb_spec x y)
          | |- context [(?x =? ?y)] =>
            no_if x; no_if y; destruct (Z.eqb_spec x y)
          end;
          try (exfalso; Z.div_mod_to_equations; lia);
          cbn [orb andb]).

Lemma Valid_Encode_scalar r t :
  scalar r →
  utf8.ValidString (utf8.EncodeRune r +:+ t) = utf8.ValidString t.
Proof.
  intros [Hr Hs].
  unfold utf8.EncodeRune, utf8.encode3, utf8.rune1Max, utf8.rune2Max,
    utf8.rune3Max, utf8.MaxRune, utf8.surrogateMin, utf8.surrogateMax,
    utf8.t2, utf8.t3, utf8.t4, utf8.tx.
  destruct (Z.leb_spec 0 r); [|lia]. cbn [andb].
  destruct (Z.leb_spec r 0x7F).
  { rewrite !sapp_cons, sapp_nil_l.
    by rewrite Valid_one by (rewrite byteZ_toByte; lia). }
  assert (∀ tag y hi n, tag = hi * 2 ^ n → 0 <= n → 0 <= y < 2 ^ n →
                        Z.lor tag y = tag + y) as lor_tag.
  { intros tag y hi n -> Hn Hy. by apply lor_disjoint. }
  rewrite ?land_maskx, ?Z.shiftr_div_pow2 by lia.
  change (2 ^ 6) with 64. change (2 ^ 12) with 4096.
  change (2 ^ 18) with 262144.
  destruct (Z.leb_spec r 0x7FF).
  { rewrite !sapp_cons, sapp_nil_l.
    rewrite ?(lor_tag 0xC0 _ 3 6), ?(lor_tag 0xE0 _ 7 5),
      ?(lor_tag 0xF0 _ 15 4), ?(lor_tag 0x80 _ 2 6)
      by (try reflexivity; change (2 ^ 6) with 64; change (2 ^ 5) with 32;
          change (2 ^ 4) with 16; Z.div_mod_to_equations; lia).
    rewrite Valid_many
      by (rewrite byteZ_toByte by (Z.div_mod_to_equations; lia);
          Z.div_mod_to_equations; lia).
    rewrite !byteZ_toByte by (Z.div_mod_to_equations; lia).
    cbn zeta. cbn [String.length]. split_tests. done. }
  destruct (Z.ltb_spec r 0); [lia|].
  destruct (Z.ltb_spec 0x10FFFF r); [lia|].
  replace ((0xD800 <=? r) && (r <=? 0xDFFF)) with false
    by (symmetry; apply andb_false_iff;
        destruct (Z.leb_spec 0xD800 r), (Z.leb_spec r 0xDFFF);
        auto; lia).
  cbn [orb].
  destruct (Z.leb_spec r 0xFFFF).
  { rewrite !sapp_cons, sapp_nil_l.
    rewrite ?(lor_tag 0xC0 _ 3 6), ?(lor_tag 0xE0 _ 7 5),
      ?(lor_tag 0xF0 _ 15 4), ?(lor_tag 0x80 _ 2 6)
      by (try reflexivity; change (2 ^ 6) with 64; change (2 ^ 5) with 32;
          change (2 ^ 4) with 16; Z.div_mod_to_equations; lia).
    rewrite Valid_many
      by (rewrite byteZ_toByte by (Z.div_mod_to_equations; lia);
          Z.div_mod_to_equations; lia).
    rewrite !byteZ_toByte by (Z.div_mod_to_equations; lia).
    cbn zeta. cbn [String.length]. unfold utf8.locb, utf8.hicb.
    split_tests. all: done. }
  rewrite !sapp_cons, sapp_nil_l.
  rewrite ?(lor_tag 0xC0 _ 3 6), ?(lor_tag 0xE0 _ 7 5),
    ?(lor_tag 0xF0 _ 15 4), ?(lor_tag 0x80 _ 2 6)
    by (try reflexivity; change (2 ^ 6) with 64; change (2 ^ 5) with 32;
        change (2 ^ 4) with 16; Z.div_mod_to_equations; lia).
  rewrite Valid_many
    by (rewrite byteZ_toByte by (Z.div_mod_to_equations; lia);
        Z.div_mod_to_equations; lia).
  rewrite !byteZ_toByte by (Z.div_mod_to_equations; lia).
  cbn zeta. cbn [String.length]. unfold utf8.locb, utf8.hicb.
  split_tests. all: done.
Qed.
End valid_after_encode.

Section reading_back.

Lemma scalar_readBack r : scalar r → readBack r = r.
Proof.
  intros [Hr Hs]. unfold readBack, utf8.MaxRune, utf8.surrogateMin,
    utf8.surrogateMax.
  destruct (Z.ltb_spec r 0); [lia|].
  destruct (Z.ltb_spec 1114111 r); [lia|].
  destruct (Z.leb_spec 55296 r), (Z.leb_spec r 57343); try done. lia.
Qed.

Lemma readBack_scalar r : readBack r = r → scalar r.
Proof.
  unfold readBack, scalar, utf8.MaxRune, utf8.surrogateMin,
    utf8.surrogateMax, utf8.RuneError.
  destruct (Z.ltb_spec r 0); [cbn; lia|].
  destruct (Z.ltb_spec 1114111 r); [cbn; lia|].
  destruct (Z.leb_spec 55296 r), (Z.leb_spec r 57343); cbn; lia.
Qed.

Lemma rangeRunes_encoded rs t :
  Forall scalar rs →
  utf8.rangeRunes (utf8.runesToString rs +:+ t) = rs ++ utf8.rangeRunes t.
Proof.
  induction 1 as [|r rs Hr _ IH]; [done|].
  cbn [utf8.runesToString app]. rewrite sapp_assoc.
  destruct (Decode_Encode_scalar r (utf8.runesToString rs +:+ t) Hr)
    as [_ ->].
  by rewrite IH.
Qed.

Lemma Valid_encoded rs t :
  Forall scalar rs →
  utf8.ValidString (utf8.runesToString rs +:+ t) = utf8.ValidString t.
Proof.
  induction 1 as [|r rs Hr _ IH]; [done|].
  cbn [utf8.runesToString]. rewrite sapp_assoc.
  by rewrite Valid_Encode_scalar.
Qed.

Lemma rangeRunes_runesToString rs :
  Forall scalar rs → utf8.rangeRunes (utf8.runesToString rs) = rs.
Proof.
  intros Hrs. rewrite <- (sapp_nil_r (utf8.runesToString rs)).
  rewrite rangeRunes_encoded by done. apply app_nil_r.
Qed.

Lemma Valid_runesToString rs :
  Forall scalar rs → utf8.ValidString (utf8.runesToString rs) = true.
Proof.
  intros Hrs. rewrite <- (sapp_nil_r (utf8.runesToString rs)).
  by rewrite Valid_encoded.
Qed.

Lemma readBack_is_scalar r : scalar (readBack r).
Proof.
  unfold readBack, scalar, utf8.MaxRune, utf8.surrogateMin,
    utf8.surrogateMax, utf8.RuneError.
  destruct (Z.ltb_spec r 0); [cbn; lia|].
  destruct (Z.ltb_spec 1114111 r); [cbn; lia|].
  destruct (Z.leb_spec 55296 r), (Z.leb_spec r 57343); cbn; lia.
Qed.

Lemma EncodeRune_readBack r :
  utf8.EncodeRune (readBack r) = utf8.EncodeRune r.
Proof.
  unfold readBack.
  destruct ((r <? 0)%Z || (utf8.MaxRune <? r)%Z
            || ((utf8.surrogateMin <=? r)%Z && (r <=? utf8.surrogateMax)%Z))
    eqn:Hc; [|done].
  assert (r < 0 ∨ 1114111 < r ∨ 55296 <= r <= 57343)%Z as Hr.
  { unfold utf8.MaxRune, utf8.surrogateMin, utf8.surrogateMax in Hc.
    destruct (Z.ltb_spec r 0); [lia|].
    destruct (Z.ltb_spec 1114111 r); [lia|].
    destruct (Z.leb_spec 55296 r), (Z.leb_spec r 57343); try done. lia. }
  unfold utf8.EncodeRune at 2. rewrite Hc.
  unfold utf8.rune1Max, utf8.rune2Max.
  destruct (Z.leb_spec 0 r), (Z.leb_spec r 127), (Z.leb_spec r 2047);
    cbn [andb]; try lia; reflexivity.
Qed.

(** What [range] reads from valid text are scalar values. *)
Lemma rangeRunes_scalar s :
  utf8.ValidString s = true → Forall scalar (utf8.rangeRunes s).
Proof.
  remember (String.length s) as n eqn:Hn. revert s Hn.
  induction n as [n IH] using lt_wf_ind. intros [|c0 r0] -> Hv; [done|].
  destruct (valid_head c0 r0 Hv) as (r & rest & Hrs & Hv' & Hs & Hl).
  rewrite Hrs. constructor; [|by eapply IH].
  apply readBack_scalar.
  rewrite Hs, <- EncodeRune_readBack in Hrs.
  destruct (Decode_Encode_scalar (readBack r) rest (readBack_is_scalar r))
    as [_ Hread].
  rewrite Hread in Hrs. by injection Hrs.
Qed.
End reading_back.

(** ** [Split] on its own fragments, and [mockDoc] *)

Section split_again.
Context `{unicode.Tables}.

Lemma groupFrom_same rs : ∀ g c,
  Forall (λ r, classOf r = c) rs → groupFrom g c rs = [g ++ rs].
Proof.
  induction rs as [|r rs IH]; intros g c Hall; cbn [groupFrom].
  - by rewrite app_nil_r.
  - apply Forall_cons in Hall as [Hr Hall].
    rewrite Hr, Z.eqb_refl, IH by done. by rewrite <- app_assoc.
Qed.

Lemma classGroups_oneClass f : f ≠ [] → oneClass f → classGroups f = [f].
Proof.
  destruct f as [|r f]; [done|]. intros _ [c Hall].
  apply Forall_cons in Hall as [Hr Hall]. cbn [classGroups].
  rewrite Hr. by rewrite groupFrom_same.
Qed.

Lemma segmentSpec_oneClass f :
  f ≠ [] → oneClass f → segmentSpec f = [utf8.runesToString f].
Proof.
  intros Hne Hone. unfold segmentSpec.
  rewrite classGroups_oneClass, <- disambiguate_spec by done.
  cbn [disambiguate app]. rewrite filter_cons.
  by case_decide.
Qed.

Lemma segmentSpec_capitalised f :
  capitalised f → segmentSpec f = [utf8.runesToString f].
Proof.
  intros (x & g & -> & Hx & Hg & Hlow).
  destruct (unicode.IsLower x) eqn:Hlx.
  - apply segmentSpec_oneClass; [done|]. exists 1%Z.
    constructor; [by apply classOf_lower|].
    eapply Forall_impl; [done|]. intros r Hr. by apply classOf_lower.
  - destruct g as [|y g]; [done|].
    apply Forall_cons in Hlow as [Hy Hlow].
    assert (classOf y = 1%Z) as Hcy by (by apply classOf_lower).
    assert (classOf x ≠ 1%Z) as Hcx.
    { intros Hc. apply classOf_lower in Hc. congruence. }
    unfold segmentSpec. cbn [classGroups groupFrom]. rewrite Hcy.
    destruct (Z.eqb_spec 1 (classOf x)) as [Heq|_]; [by destruct Hcx|].
    rewrite groupFrom_same
      by (eapply Forall_impl; [done|]; intros r Hr; by apply classOf_lower).
    rewrite <- disambiguate_spec, disambiguate_pair.
    unfold movePair. cbn [forallb startsLower app]. rewrite Hx, Hy.
    cbn [andb disambiguate]. rewrite !filter_cons.
    cbn. repeat case_decide; done.
Qed.

Lemma segmentSpec_word f :
  wordShape f → segmentSpec f = [utf8.runesToString f].
Proof.
  intros [Hne [Hone|Hcap]];
    [by apply segmentSpec_oneClass|by apply segmentSpec_capitalised].
Qed.

Lemma Forall_concat_elem {A} (P : A → Prop) (ls : list (list A)) l :
  Forall P (concat ls) → l ∈ ls → Forall P l.
Proof.
  induction ls as [|l' ls IH]; cbn [concat]; intros Hall Hin.
  - by apply elem_of_nil in Hin.
  - apply Forall_app in Hall as [Hl Hls].
    apply elem_of_cons in Hin as [->|Hin]; [done|by apply IH].
Qed.

(** X11.  The fragments [Split] returns are words for [Split] itself:
    each of them is valid UTF-8 exactly when the input is, and [Split]
    returns it whole, as its only fragment. *)
Theorem X11_fragments_split_no_further src :
  ∃ entries,
    Split src = Some entries
    ∧ Forall (λ e, utf8.ValidString e = utf8.ValidString src
                   ∧ Split e = Some [e]) entries.
Proof.
  destruct (utf8.ValidString src) eqn:Hv.
  - eexists. split; [by apply Split_valid|].
    unfold segmentSpec. apply Forall_map, Forall_forall. intros f Hf.
    pose proof (fragments_shapes (utf8.rangeRunes src)) as Hw.
    rewrite Forall_forall in Hw. specialize (Hw f Hf).
    assert (Forall scalar f) as Hsc.
    { eapply Forall_concat_elem; [|done].
      rewrite concat_nonempty, disambiguateSpec_concat.
      by apply rangeRunes_scalar. }
    cbn. rewrite Valid_runesToString by done. split; [done|].
    rewrite Split_valid by (by apply Valid_runesToString).
    by rewrite rangeRunes_runesToString, segmentSpec_word.
  - exists [src]. split; [by apply Split_invalid|].
    constructor; [|done]. split; [done|]. by apply Split_invalid.
Qed.
End split_again.

Section lower.
Context `{unicode.Tables}.

Lemma mapRunes_app f (a b : list rune) :
  gostrings.mapRunes f (a ++ b)
  = gostrings.mapRunes f a +:+ gostrings.mapRunes f b.
Proof.
  induction a as [|r a IH]; [done|].
  cbn [app gostrings.mapRunes]. by rewrite IH, sapp_assoc.
Qed.

Lemma lowerBytes_noUpper s :
  gostrings.hasUpper s = false → gostrings.lowerBytes s = s.
Proof.
  induction s as [|c s IH]; [done|].
  cbn [gostrings.hasUpper gostrings.lowerBytes].
  intros Hu. apply orb_false_iff in Hu as [-> Hu]. by rewrite IH.
Qed.

Lemma mapRunes_ascii s :
  gostrings.isASCII s = true →
  gostrings.mapRunes unicode.ToLower (utf8.rangeRunes s)
  = gostrings.lowerBytes s.
Proof.
  induction s as [|c s IH]; [done|]. cbn [gostrings.isASCII].
  intros Ha. apply andb_true_iff in Ha as [Hc Ha].
  apply Z.ltb_lt in Hc. unfold utf8.RuneSelf in Hc.
  pose proof (byteZ_range c) as Hb.
  cbn [utf8.rangeRunes]. rewrite Decode_one by done.
  cbn [gostrings.mapRunes gostrings.lowerBytes]. rewrite IH by done.
  unfold unicode.ToLower, unicode.MaxASCII.
  destruct (Z.leb_spec (byteZ c) 127); [|lia].
  destruct ((65 <=? byteZ c)%Z && (byteZ c <=? 90)%Z) eqn:Hup.
  - apply andb_true_iff in Hup as [H1 H2].
    apply Z.leb_le in H1, H2.
    destruct (Z.ltb_spec (byteZ c + (97 - 65)) 0); [lia|].
    unfold utf8.EncodeRune, utf8.rune1Max.
    destruct (Z.leb_spec 0 (byteZ c + (97 - 65))); [|lia].
    by destruct (Z.leb_spec (byteZ c + (97 - 65)) 127); [|lia].
  - destruct (Z.ltb_spec (byteZ c) 0); [lia|].
    unfold utf8.EncodeRune, utf8.rune1Max.
    destruct (Z.leb_spec 0 (byteZ c)); [|lia].
    destruct (Z.leb_spec (byteZ c) 127); [|lia].
    cbn [andb]. by rewrite toByte_byteZ.
Qed.

(** The fast path of [strings.ToLower] returns what the general path
    would. *)
Lemma ToLower_Map s :
  gostrings.ToLower s = gostrings.Map unicode.ToLower s.
Proof.
  unfold gostrings.ToLower, gostrings.Map.
  destruct (gostrings.isASCII s) eqn:Ha; [|done].
  rewrite mapRunes_ascii by done.
  destruct (gostrings.hasUpper s) eqn:Hu; [done|].
  by rewrite lowerBytes_noUpper.
Qed.

Lemma ToLower_fragments (frags : list (list rune)) :
  Forall (Forall scalar) frags →
  joinAll (map gostrings.ToLower (map utf8.runesToString frags))
  = gostrings.mapRunes unicode.ToLower (concat frags).
Proof.
  induction 1 as [|f frags Hf _ IH]; [done|].
  cbn [map joinAll concat]. rewrite mapRunes_app, IH, ToLower_Map.
  unfold gostrings.Map. by rewrite rangeRunes_runesToString.
Qed.

(** X12.  The description that [mockDoc] builds is the name in lower
    case cut into words: the words joined by spaces are the description,
    and the words put together are [strings.ToLower] of the name. *)
Theorem X12_description_is_lowered_name name :
  ∃ words, mockDoc name = Some (gostrings.Join words " ")
           ∧ gostrings.Join words "" = gostrings.ToLower name.
Proof.
  unfold mockDoc. destruct (utf8.ValidString name) eqn:Hv.
  - rewrite Split_valid by done. option_step.
    eexists. split; [reflexivity|].
    rewrite Join_empty_sep. unfold segmentSpec.
    rewrite ToLower_fragments.
    + rewrite concat_nonempty, disambiguateSpec_concat.
      by rewrite ToLower_Map.
    + apply Forall_forall. intros f Hf.
      eapply Forall_concat_elem; [|done].
      rewrite concat_nonempty, disambiguateSpec_concat.
      by apply rangeRunes_scalar.
  - rewrite Split_invalid by done. option_step.
    eexists. split; [reflexivity|]. cbn. apply sapp_nil_r.
Qed.
End lower.

(** ** The file filters *)

Section filter_facts.

Lemma sliceFrom_split n : ∀ s, ∃ p, s = p +:+ gostrings.sliceFrom n s.
Proof.
  induction n as [|n IH]; intros s; [by exists ""|].
  destruct s as [|c s]; [by exists ""|].
  destruct (IH s) as [p Hp]. exists (String c p).
  cbn [gostrings.sliceFrom]. rewrite sapp_cons. by f_equal.
Qed.

Lemma HasSuffix_endsWith s suffix :
  HasSuffix s suffix = true ↔ endsWith s suffix.
Proof.
  unfold HasSuffix, endsWith. split.
  - intros Hs. apply andb_true_iff in Hs as [_ Hs].
    apply String.eqb_eq in Hs.
    destruct (sliceFrom_split (String.length s - String.length suffix) s)
      as [p Hp].
    exists p. by rewrite <- Hs.
  - intros [p ->]. rewrite slength_app.
    replace (String.length p + String.length suffix - String.length suffix)
      with (String.length p) by lia.
    rewrite sliceFrom_app, String.eqb_refl, andb_true_r.
    apply Nat.leb_le. lia.
Qed.

Lemma Contains_occursIn s sub : Contains s sub = true ↔ occursIn sub s.
Proof.
  unfold occursIn. split.
  - induction s as [|c s IH]; cbn [Contains]; intros Hc;
      apply orb_true_iff in Hc as [Hp|Hc]; try done.
    + apply HasPrefix_split in Hp. eexists "", _. exact Hp.
    + apply HasPrefix_split in Hp. eexists "", _. exact Hp.
    + destruct (IH Hc) as (a & b & ->). by exists (String c a), b.
  - intros (a & b & ->). induction a as [|c a IH].
    + rewrite sapp_nil_l.
      assert (gostrings.HasPrefix (sub +:+ b) sub = true) as Hp
        by apply HasPrefix_app.
      destruct (sub +:+ b); cbn [Contains]; by rewrite Hp.
    + rewrite sapp_cons. cbn [Contains]. rewrite IH. apply orb_true_r.
Qed.
End filter_facts.

Section filter_extras.
Variable firstLine : string → option string.

(** X13.  The filter panics on exactly the files that cannot be opened
    and that it has to open: a file whose name ends in [_test.go] or
    contains [generated] is rejected without being opened. *)
Theorem X13_filter_opens_only_candidates path info :
  dirFilter firstLine path info = None
  ↔ firstLine (path +:+ "/" +:+ fileName info) = None
    ∧ ¬ endsWith (fileName info) "_test.go"
    ∧ ¬ occursIn "generated" (fileName info).
Proof.
  unfold dirFilter, testsFilter, generatedFilter.
  rewrite <- HasSuffix_endsWith, <- Contains_occursIn.
  destruct (HasSuffix (fileName info) "_test.go");
    destruct (Contains (fileName info) "generated"); cbn [negb];
    try (cbn; intuition congruence).
  destruct (firstLine _) as [line|]; cbn.
  - destruct (_ || _); intuition congruence.
  - intuition congruence.
Qed.

End filter_extras.

(** ** The walk of [mapDirectory] *)

Section walk_facts.

Lemma walk_Dir fn path name children :
  walk fn path (Dir name children) =
  '(log, err1) ← fn path (Some {| fileName := name; isDir := true |}) None;
  match err1 with
  | Some _ => Some (log, err1)
  | None => '(log', r) ← walkEntries fn path children; Some (log ++ log', r)
  end.
Proof.
  cbn [walk]. destruct (fn path _ None) as [[log [e|]]|]; try done.
  cbn [mbind option_bind]. do 2 f_equal.
  induction children as [|c cs IH]; [done|].
  cbn [walkEntries]. by rewrite IH.
Qed.

(** Induction on a tree, the entries of a directory being covered. *)
Lemma entry_induction (P : entry → Prop) :
  (∀ name, P (File name)) →
  (∀ name cs, Forall P cs → P (Dir name cs)) →
  (∀ name err, P (Unreadable name err)) →
  (∀ name err, P (Missing name err)) →
  ∀ e, P e.
Proof.
  intros HF HD HU HM. fix IH 1. intros [name|name cs|name err|name err].
  - apply HF.
  - apply HD. induction cs as [|c cs IHcs]; constructor; [apply IH|done].
  - apply HU.
  - apply HM.
Qed.
End walk_facts.

Section mapDirectory_facts.
Variable operation : string → option error.

Local Abbreviation fn := (walkFunc operation).

Lemma walkFunc_file path name :
  fn path (Some {| fileName := name; isDir := false |}) None
  = Some ([], if String.eqb name "vendor" then Some SkipDir else None).
Proof. cbn. by destruct (String.eqb name "vendor"). Qed.

Lemma walkFunc_dir path name :
  fn path (Some {| fileName := name; isDir := true |}) None
  = Some (if String.eqb name "vendor" then ([], Some SkipDir)
          else ([path], operation path)).
Proof. cbn. by destruct (String.eqb name "vendor"). Qed.

Lemma walk_Dir_vendor path cs :
  walk fn path (Dir "vendor" cs) = Some ([], Some SkipDir).
Proof. by rewrite walk_Dir, walkFunc_dir. Qed.

Lemma walk_Dir_other path name cs :
  name ≠ "vendor" →
  walk fn path (Dir name cs) =
  match operation path with
  | Some e => Some ([path], Some e)
  | None => '(log', r) ← walkEntries fn path cs; Some (path :: log', r)
  end.
Proof.
  intros Hn. apply String.eqb_neq in Hn.
  rewrite walk_Dir, walkFunc_dir, Hn. cbn [mbind option_bind].
  destruct (operation path); [done|].
  by destruct (walkEntries fn path cs) as [[log' r]|].
Qed.

(** What is called, is called on a live directory. *)
Lemma walk_live e : ∀ path,
  ∃ log r, walk fn path e = Some (log, r)
           ∧ ∀ p, p ∈ log → liveDir path e p.
Proof.
  induction e as [name|name cs IH|name err|name err] using entry_induction;
    intros path.
  - cbn [walk]. rewrite walkFunc_file. eexists _, _. split; [done|].
    intros p Hp. by apply elem_of_nil in Hp.
  - destruct (String.eqb_spec name "vendor") as [->|Hn].
    { rewrite walk_Dir_vendor. eexists _, _. split; [done|].
      intros p Hp. by apply elem_of_nil in Hp. }
    rewrite walk_Dir_other by done.
    destruct (operation path) as [e|].
    { eexists _, _. split; [done|]. intros p Hp.
      apply list_elem_of_singleton in Hp as ->. by constructor. }
    assert (∃ log' r, walkEntries fn path cs = Some (log', r)
                      ∧ ∀ p, p ∈ log' →
                             ∃ c, c ∈ cs
                                  ∧ liveDir (joinPath path (entryName c)) c p)
      as (log' & r & -> & Hlive).
    { clear Hn. induction IH as [|c cs Hc _ IHcs].
      - eexists _, _. split; [done|]. intros p Hp.
        by apply elem_of_nil in Hp.
      - cbn [walkEntries].
        destruct (Hc (joinPath path (entryName c))) as (l1 & r1 & -> & H1).
        cbn [mbind option_bind].
        destruct (returnsAfter c r1).
        + eexists _, _. split; [done|]. intros p Hp. exists c.
          split; [by left|by apply H1].
        + destruct IHcs as (l2 & r2 & -> & H2). cbn [mbind option_bind].
          eexists _, _. split; [done|]. intros p Hp.
          apply elem_of_app in Hp as [Hp|Hp].
          * exists c. split; [by left|by apply H1].
          * destruct (H2 p Hp) as (c' & Hc' & Hl). exists c'.
            split; [by right|done]. }
    cbn [mbind option_bind]. eexists _, _. split; [done|].
    intros p Hp. apply elem_of_cons in Hp as [->|Hp]; [by constructor|].
    destruct (Hlive p Hp) as (c & Hc & Hl). by eapply live_below.
  - cbn. eexists _, _. split; [done|]. intros p Hp.
    by apply elem_of_nil in Hp.
  - cbn. eexists _, _. split; [done|]. intros p Hp.
    by apply elem_of_nil in Hp.
Qed.
Lemma allDirs_Dir path name cs :
  allDirs path (Dir name cs)
  = path :: concat (map (λ c, allDirs (joinPath path (entryName c)) c) cs).
Proof.
  cbn [allDirs]. f_equal.
  induction cs as [|c cs IH]; [done|]. cbn [map concat]. by rewrite IH.
Qed.

Lemma plain_Dir name cs :
  plain (Dir name cs) ↔ name ≠ "vendor" ∧ Forall plain cs.
Proof.
  cbn [plain].
  assert ((fix all (cs : list entry) : Prop :=
             match cs with
             | [] => True
             | c :: cs' => plain c ∧ all cs'
             end) cs ↔ Forall plain cs) as ->; [|done].
  induction cs as [|c cs IH]; [by split|].
  rewrite Forall_cons, IH. done.
Qed.

(** With nothing named vendor, nothing unreadable and no failure, every
    directory is visited, each before what it holds. *)
Lemma walk_plain e :
  (∀ p, operation p = None) → plain e →
  ∀ path, walk fn path e = Some (allDirs path e, None).
Proof.
  intros Hop.
  induction e as [name|name cs IH|name err|name err] using entry_induction;
    intros Hpl path; try done.
  - cbn [walk plain allDirs] in *. rewrite walkFunc_file.
    apply String.eqb_neq in Hpl. by rewrite Hpl.
  - apply plain_Dir in Hpl as [Hn Hcs].
    rewrite walk_Dir_other, Hop, allDirs_Dir by done.
    assert (walkEntries fn path cs
            = Some (concat (map (λ c, allDirs (joinPath path (entryName c)) c)
                                cs), None)) as ->; [|done].
    induction cs as [|c cs IHcs]; [done|].
    apply Forall_cons in IH as [Hc IH]. apply Forall_cons in Hcs as [Hpc Hcs].
    cbn [walkEntries map concat]. rewrite Hc by done.
    cbn [mbind option_bind returnsAfter]. by rewrite IHcs.
Qed.

(** The loop stops at a file named vendor. *)
Lemma walkEntries_vendor_file path cs1 cs2 :
  walkEntries fn path (cs1 ++ File "vendor" :: cs2) =
  match walkEntries fn path cs1 with
  | Some (l, None) => Some (l, Some SkipDir)
  | other => other
  end.
Proof.
  induction cs1 as [|c cs1 IH]; [done|].
  cbn [app walkEntries].
  destruct (walk fn _ c) as [[l1 r1]|]; [|done]. cbn [mbind option_bind].
  destruct (returnsAfter c r1) eqn:Hret.
  - destruct r1 as [e|]; [done|]. done.
  - rewrite IH.
    destruct (walkEntries fn path cs1) as [[l2 [e|]]|]; [done| |done].
    cbn [mbind option_bind]. done.
Qed.

Lemma walk_stops e :
  (∀ p, operation p ≠ Some SkipDir) →
  ∀ path log r,
    walk fn path e = Some (log, r) → stopsAtFailure operation log r.
Proof.
  intros Hop.
  induction e as [name|name cs IH|name err|name err] using entry_induction;
    intros path log r.
  - cbn [walk]. rewrite walkFunc_file. intros [= <- <-]. by left.
  - destruct (String.eqb_spec name "vendor") as [->|Hn].
    { rewrite walk_Dir_vendor. intros [= <- <-]. by left. }
    rewrite walk_Dir_other by done.
    destruct (operation path) as [e|] eqn:Hpath.
    { intros [= <- <-]. right. exists [], path.
      repeat split; [done|congruence|done]. }
    destruct (walkEntries fn path cs) as [[log' r']|] eqn:Hcs; [|done].
    cbn [mbind option_bind]. intros [= <- <-].
    assert (stopsAtFailure operation log' r')
      as [Hall|(l & p & -> & Hl & Hp & Hr)].
    { clear Hn Hpath. revert log' r' Hcs.
      induction IH as [|c cs Hc _ IHcs]; intros log' r'; cbn [walkEntries].
      - intros [= <- <-]. by left.
      - destruct (walk fn _ c) as [[l1 r1]|] eqn:Hw; [|done].
        cbn [mbind option_bind]. specialize (Hc _ _ _ Hw).
        destruct (returnsAfter c r1) eqn:Hret; [by intros [= <- <-]|].
        destruct (walkEntries fn path cs) as [[l2 r2]|]; [|done].
        cbn [mbind option_bind]. intros [= <- <-].
        assert (Forall (λ p, operation p = None) l1) as Hl1.
        { destruct Hc as [?|(l & p & -> & Hl & Hp & ->)]; [done|].
          destruct (operation p) as [[|msg]|] eqn:Hop'; try done.
          by destruct (Hop p). }
        destruct (IHcs _ _ eq_refl) as [Hall|(l & p & -> & Hl & Hp & Hr)].
        + left. by apply Forall_app.
        + right. exists (l1 ++ l), p. rewrite app_assoc.
          repeat split; try done. by apply Forall_app. }
    + left. by constructor.
    + right. exists (path :: l), p. repeat split; try done.
      by constructor.
  - cbn. intros [= <- <-]. by left.
  - cbn. intros [= <- <-]. by left.
Qed.
End mapDirectory_facts.

Section mapDirectory_extras.
Variable operation : string → option error.




End mapDirectory_extras.

(** ** The further properties at concrete inputs *)

Lemma X1_witness :
  @IsExported unicode.asciiTables {| Name := "CamelCase" |} = true
  ∧ ∃ text,
      @autoDecl unicode.asciiTables describingConfig {| Name := "CamelCase" |}
        ["//CamelCase"; "// more"]
      = Some (("// CamelCase " +:+ text) :: tail ["//CamelCase"; "// more"]).
Proof.
  split; [reflexivity|].
  apply (@X1_head_starts_with_name unicode.asciiTables describingConfig
           {| Name := "CamelCase" |}). reflexivity.
Defined.

Lemma X2_witness :
  "// camel case" ≠ "// CamelCase"
  ∧ "// camel case" ≠ "//CamelCase"
  ∧ @autoDecl unicode.asciiTables defaultConfig {| Name := "CamelCase" |}
      ["// camel case"; "// more"]
    = @autoDecl unicode.asciiTables describingConfig {| Name := "CamelCase" |}
        ["// camel case"; "// more"].
Proof.
  split; [discriminate|]. split; [discriminate|].
  apply (@X2_configuration_only_for_missing_text unicode.asciiTables
           defaultConfig describingConfig {| Name := "CamelCase" |});
    discriminate.
Defined.

Lemma X3_witness :
  @IsExported unicode.asciiTables {| Name := "Camel" |} = true
  ∧ "CamelCase does it" ≠ "Camel"
  ∧ (∀ u, "CamelCase does it" ≠ "Camel" +:+ " " +:+ u)
  ∧ (∀ u, "CamelCase does it" ≠ "Camel" +:+ ":" +:+ u)
  ∧ @autoDecl unicode.asciiTables defaultConfig {| Name := "Camel" |}
      ["// CamelCase does it"; "// more"]
    = Some ["// Camel CamelCase does it"; "// more"].
Proof.
  split; [reflexivity|]. split; [discriminate|].
  split; [intros u; discriminate|]. split; [intros u; discriminate|].
  apply (@X3_missing_name_keeps_text unicode.asciiTables defaultConfig
           {| Name := "Camel" |} "CamelCase does it");
    [reflexivity | discriminate | intros u; discriminate
     | intros u; discriminate].
Defined.

Lemma X4_witness :
  @IsExported unicode.asciiTables {| Name := "CamelCase" |} = true
  ∧ @autoDecl unicode.asciiTables defaultConfig {| Name := "CamelCase" |}
      ["//CamelCase:camel case"; "// more"]
    = Some ["// CamelCase camel case"; "// more"].
Proof.
  split; [reflexivity|].
  apply (@X4_separators_normalised unicode.asciiTables defaultConfig
           {| Name := "CamelCase" |} "camel case");
    [reflexivity|].
  right. split; [intros u; discriminate|]. right. left. reflexivity.
Defined.

Lemma X5_witness :
  nodeNamed
    (GenDecl [ TypeSpec {| Name := "Alpha" |} ["// the first"];
               ValueSpec [{| Name := "Beta" |}; {| Name := "gamma" |}] [] ]
             ["// a group"])
  ∧ ∃ n',
      @inspectNode unicode.asciiTables defaultConfig
        (GenDecl [ TypeSpec {| Name := "Alpha" |} ["// the first"];
                   ValueSpec [{| Name := "Beta" |}; {| Name := "gamma" |}] [] ]
                 ["// a group"])
      = Some (n', true)
      ∧ bareNode n'
        = bareNode
            (GenDecl [ TypeSpec {| Name := "Alpha" |} ["// the first"];
                       ValueSpec [{| Name := "Beta" |}; {| Name := "gamma" |}]
                                 [] ]
                     ["// a group"]).
Proof.
  assert (nodeNamed
            (GenDecl [ TypeSpec {| Name := "Alpha" |} ["// the first"];
                       ValueSpec [{| Name := "Beta" |}; {| Name := "gamma" |}]
                                 [] ]
                     ["// a group"])) as Hn.
  { cbn. repeat constructor. discriminate. }
  split; [exact Hn|].
  exact (@X5_inspect_keeps_the_tree unicode.asciiTables defaultConfig _ Hn).
Defined.


Lemma X7_witness :
  @IsExported unicode.asciiTables {| Name := "alpha" |} = false
  ∧ @inspectNode unicode.asciiTables defaultConfig
      (GenDecl [ValueSpec [{| Name := "alpha" |}; {| Name := "Beta" |}] []]
               [])
    = Some (GenDecl
              [ValueSpec [{| Name := "alpha" |}; {| Name := "Beta" |}] []]
              [], true)
  ∧ @instrumentSpec unicode.asciiTables defaultConfig
      (ValueSpec [{| Name := "alpha" |}; {| Name := "Beta" |}] [])
    = Some (ValueSpec [{| Name := "alpha" |}; {| Name := "Beta" |}] []).
Proof.
  split; [reflexivity|].
  apply (@X7_first_name_decides unicode.asciiTables). reflexivity.
Defined.

Lemma X8_witness :
  @inspectNode unicode.asciiTables describingConfig
    (FuncDecl {| Name := "ParseFile" |} [])
  = Some (FuncDecl {| Name := "ParseFile" |} ["// ParseFile parse file"],
          true)
  ∧ @inspectNode unicode.asciiTables describingConfig
      (FuncDecl {| Name := "ParseFile" |} ["// ParseFile parse file"])
    = Some (FuncDecl {| Name := "ParseFile" |} ["// ParseFile parse file"],
            true).
Proof.
  split; [reflexivity|].
  apply (@X8_inspect_idempotent unicode.asciiTables describingConfig
           (FuncDecl {| Name := "ParseFile" |} [])).
  reflexivity.
Defined.

Lemma X9_witness :
  utf8.ValidString "HTTPServer2xx" = true
  ∧ ∃ frags,
      @Split unicode.asciiTables "HTTPServer2xx"
      = Some (map utf8.runesToString frags)
      ∧ Forall (@wordShape unicode.asciiTables) frags.
Proof.
  split; [reflexivity|].
  apply (@X9_fragments_are_words unicode.asciiTables). reflexivity.
Defined.



